(** * crawlerIntellect: the crawl / sanitize / reconcile pipeline of
    [src/crawler-new.js]

    The development embeds the five functions of the source file

      - [sanitizeMovieTitle]  (lines 18-54),
      - [processMovies]       (lines 56-71),
      - [updateSheet]         (lines 73-123),
      - [crawlAndUpdate]      (lines 125-227), with its scroll loop
        (lines 155-191) and its extraction loop (lines 197-211),
      - the top-level call    (line 229),

    and states the properties of the specification over them.

    Modelling conventions.
      - A JavaScript string is a [string]: one [ascii] per code unit, so
        the code units of the model are those below 256.  [isSpace] and
        [isWord] are the ECMAScript tables on these code units;
        [toUpperCase] is the ECMAScript one on ASCII and leaves the other
        code units in place.
      - A JavaScript value that may be [undefined] or [null] is a [value].
      - A call that may raise is an [outcome]; the external collaborators
        (browser page, credential provider, spreadsheet) are an oracle
        record [World] that says what each call answers.
      - The spreadsheet and the browser are observed through the list of
        [Event]s a run leaves behind. *)

From Stdlib Require Import Ascii String List Bool Arith Lia.
From stdpp Require Import gmap strings list.

(* String literals are read as [string]s; [++], [<=?] and the like stay
   the list and [nat] ones unless marked. *)
Open Scope string_scope.
Open Scope nat_scope.
Open Scope list_scope.

(* ================================================================== *)
(** * JavaScript values and raising computations *)
(* ================================================================== *)

Inductive value : Type :=
  | Undefined
  | Null
  | Str (s : string).

#[global] Instance value_eq_dec : EqDecision value.
Proof. solve_decision. Defined.

#[global] Instance value_countable : Countable value.
Proof.
  refine (inj_countable'
    (λ v, match v with
          | Undefined => inl false | Null => inl true | Str s => inr s
          end)
    (λ x, match x with
          | inl false => Undefined | inl true => Null | inr s => Str s
          end) _).
  by intros [].
Defined.

(** ToBoolean on the values of the model: [undefined], [null] and the empty
    string are falsy. *)
Definition truthy (v : value) : bool :=
  match v with
  | Str s => negb (String.eqb s "")
  | _ => false
  end.

(** What is thrown: a [TypeError] of the language, or the rejection of an
    external call. *)
Inductive error : Type :=
  | TypeError (msg : string)
  | Rejected (what : string).

(** The result of running a piece of code: it returns, it throws, or it
    does not complete (a promise that never settles, a loop that is still
    running when the fuel of the model is spent). *)
Inductive outcome (A : Type) : Type :=
  | Return (a : A)
  | Throw (e : error)
  | Diverge.
Arguments Return {A} a.
Arguments Throw {A} e.
Arguments Diverge {A}.

#[global] Instance outcome_ret : MRet outcome := λ A a, Return a.

#[global] Instance outcome_bind : MBind outcome := λ A B k o,
  match o with
  | Return a => k a
  | Throw e => Throw e
  | Diverge => Diverge
  end.

#[global] Instance outcome_fmap : FMap outcome := λ A B f o,
  match o with
  | Return a => Return (f a)
  | Throw e => Throw e
  | Diverge => Diverge
  end.

(* ================================================================== *)
(** * Strings: the String.prototype and RegExp operations the code uses *)
(* ================================================================== *)

Module Js.

Definition isDigit (c : ascii) : bool :=
  (("0" <=? c) && (c <=? "9"))%char.

Definition isUpper (c : ascii) : bool :=
  (("A" <=? c) && (c <=? "Z"))%char.

Definition isLower (c : ascii) : bool :=
  (("a" <=? c) && (c <=? "z"))%char.

(** [\w] is [[A-Za-z0-9_]]. *)
Definition isWord (c : ascii) : bool :=
  isUpper c || isLower c || isDigit c || Ascii.eqb c "_".

(** [\s] and the characters [trim()] removes, among the code units below
    256: TAB, LF, VT, FF, CR, SP and the no-break space U+00A0. *)
Definition isSpace (c : ascii) : bool :=
  let n := nat_of_ascii c in
  (9 <=? n) && (n <=? 13) || (n =? 32) || (n =? 160).

Definition upperChar (c : ascii) : ascii :=
  if isLower c then ascii_of_nat (nat_of_ascii c - 32) else c.

Fixpoint toUpperCase (s : string) : string :=
  match s with
  | EmptyString => EmptyString
  | String c s' => String (upperChar c) (toUpperCase s')
  end.

Definition first (s : string) : option ascii :=
  match s with
  | EmptyString => None
  | String c _ => Some c
  end.

Fixpoint last (s : string) : option ascii :=
  match s with
  | EmptyString => None
  | String c EmptyString => Some c
  | String _ s' => last s'
  end.

(** [stripPrefix p s] is what follows [p] in [s] when [s] starts with
    [p]. *)
Fixpoint stripPrefix (p s : string) : option string :=
  match p, s with
  | EmptyString, _ => Some s
  | String a p', String b s' =>
      if Ascii.eqb a b then stripPrefix p' s' else None
  | String _ _, EmptyString => None
  end.

Definition startsWith (s p : string) : bool :=
  match stripPrefix p s with Some _ => true | None => false end.

(** [s.includes(t)]: [t] occurs at some position of [s]. *)
Fixpoint includes (s t : string) : bool :=
  startsWith s t ||
  match s with
  | EmptyString => false
  | String _ s' => includes s' t
  end.

(** [xs.join(sep)]. *)
Fixpoint join (sep : string) (xs : list string) : string :=
  match xs with
  | [] => ""
  | [x] => x
  | x :: xs' => (x ++ sep ++ join sep xs')%string
  end.

(** ** Matching at a position

    A regular expression without the [g] flag finds its leftmost match.
    [at_ prev rest] tries the expression at one position: [rest] is the
    input from that position on and [prev] the code unit before it.
    [matchFrom] moves the position to the right until a try succeeds;
    [None] is the [null] of [String.prototype.match]. *)
Fixpoint matchFrom (at_ : option ascii → string → option string)
    (prev : option ascii) (s : string) : option string :=
  match at_ prev s with
  | Some m => Some m
  | None =>
      match s with
      | EmptyString => None
      | String c s' => matchFrom at_ (Some c) s'
      end
  end.

Definition isWordOpt (c : option ascii) : bool :=
  match c with Some c => isWord c | None => false end.

(** [\b]: exactly one of the two neighbours is a word character. *)
Definition wordBoundary (prev next : option ascii) : bool :=
  xorb (isWordOpt prev) (isWordOpt next).

(** [/\b(20|19)\d{2}\b/] tried at one position. *)
Definition yearAt (prev : option ascii) (rest : string) : option string :=
  match rest with
  | String a (String b (String c (String d rest'))) =>
      if wordBoundary prev (Some a)
         && (String.eqb (String a (String b "")) "20"
             || String.eqb (String a (String b "")) "19")
         && isDigit c && isDigit d
         && wordBoundary (Some d) (first rest')
      then Some (String a (String b (String c (String d ""))))
      else None
  | _ => None
  end.

(** An alternation of literals between two [\b], tried at one position:
    the alternatives are tried in order and the first one that is
    followed by a word boundary is the match. *)
Definition literalsAt (alts : list string)
    (prev : option ascii) (rest : string) : option string :=
  if wordBoundary prev (first rest) then
    List.find
      (λ alt, match stripPrefix alt rest with
              | Some rest' => wordBoundary (last alt) (first rest')
              | None => false
              end)
      alts
  else None.

(** [/\b(1080p|720p|2160p)\b/] tried at one position. *)
Definition qualityAt : option ascii → string → option string :=
  literalsAt ["1080p"; "720p"; "2160p"].

Definition extensions : list string :=
  ["mkv"; "mp4"; "mov"; "avi"; "wmv"; "flv"; "webm"].

(** [/\.(mkv|mp4|mov|avi|wmv|flv|webm)$/i] tried at one position: a dot,
    one of the extensions in any letter case, and the end of the input. *)
Definition extensionAt (rest : string) : bool :=
  match rest with
  | String c e =>
      Ascii.eqb c "."
      && existsb (λ x, String.eqb (toUpperCase e) (toUpperCase x))
           extensions
  | EmptyString => false
  end.

(** [.replace(/\.(mkv|...|webm)$/i, "")]: the leftmost match is removed;
    it reaches the end of the input, so what is left is what precedes
    it. *)
Fixpoint replaceExtension (s : string) : string :=
  if extensionAt s then ""
  else match s with
       | EmptyString => ""
       | String c s' => String c (replaceExtension s')
       end.

Fixpoint mapChars (f : ascii → ascii) (s : string) : string :=
  match s with
  | EmptyString => EmptyString
  | String c s' => String (f c) (mapChars f s')
  end.

(** [.replace(/\./g, " ")]. *)
Definition replaceDots : string → string :=
  mapChars (λ c, if Ascii.eqb c "." then " "%char else c).

(** The class [[\[\]\(\)\-\_\/]]. *)
Definition isBracket (c : ascii) : bool :=
  existsb (Ascii.eqb c) ["["; "]"; "("; ")"; "-"; "_"; "/"]%char.

(** [.replace(/[\[\]\(\)\-\_\/]/g, " ")]. *)
Definition replaceBrackets : string → string :=
  mapChars (λ c, if isBracket c then " "%char else c).

Fixpoint trimStart (s : string) : string :=
  match s with
  | EmptyString => ""
  | String c s' => if isSpace c then trimStart s' else s
  end.

Fixpoint trimEnd (s : string) : string :=
  match s with
  | EmptyString => ""
  | String c s' =>
      match trimEnd s' with
      | EmptyString => if isSpace c then "" else String c ""
      | r => String c r
      end
  end.

(** [.trim()]. *)
Definition trim (s : string) : string := trimEnd (trimStart s).

(** [.replace(/\s+/g, " ")]: every maximal run of white space becomes one
    space; [inRun] says that the preceding code unit was white space. *)
Fixpoint collapseFrom (inRun : bool) (s : string) : string :=
  match s with
  | EmptyString => ""
  | String c s' =>
      if isSpace c then
        if inRun then collapseFrom true s'
        else String " " (collapseFrom true s')
      else String c (collapseFrom false s')
  end.

Definition collapseSpaces : string → string := collapseFrom false.

(** [/\d{4}/] tried at one position. *)
Definition digits4At (rest : string) : bool :=
  match rest with
  | String a (String b (String c (String d _))) =>
      isDigit a && isDigit b && isDigit c && isDigit d
  | _ => false
  end.

(** [.split(/\d{4}/)]: the pieces between the matches, from left to
    right.  [skip] counts the code units of the current match that are
    still to be passed. *)
Fixpoint splitFrom (skip : nat) (s : string) : list string :=
  match skip, s with
  | S k, String _ s' => splitFrom k s'
  | S _, EmptyString => [""]
  | 0, EmptyString => [""]
  | 0, String c s' =>
      if digits4At s then "" :: splitFrom 3 s'
      else match splitFrom 0 s' with
           | piece :: pieces => String c piece :: pieces
           | [] => [String c ""]
           end
  end.

Definition splitDigits4 : string → list string := splitFrom 0.

End Js.

(* ================================================================== *)
(** * [sanitizeMovieTitle], lines 18-54 *)
(* ================================================================== *)

Record SanitizedFields : Type := {
  sanitized_title : string;
  year : string;
  quality : string;
  keywords : string;
}.

Definition possibleKeywords : list string :=
  ["REMUX"; "BluRay"; "UNTOUCHED"; "HDR10"; "IMAX"; "Hallowed"; "REMASTERED"].

(** Line 22. *)
Definition yearMatch (title : string) : option string :=
  Js.matchFrom Js.yearAt None title.

(** Line 23. *)
Definition qualityMatch (title : string) : option string :=
  Js.matchFrom Js.qualityAt None title.

(** Lines 34-36: the array [keywords] before it is joined. *)
Definition matchedKeywords (title : string) : list string :=
  List.filter
    (λ keyword, Js.includes (Js.toUpperCase title) (Js.toUpperCase keyword))
    possibleKeywords.

(** Lines 38-43. *)
Definition sanitizedTitle (title : string) : string :=
  Js.collapseSpaces
    (Js.trim (Js.replaceBrackets (Js.replaceDots (Js.replaceExtension title)))).

(** Line 46: [sanitizedTitle.split(/\d{4}/)[0].trim()]; calling [trim] on
    [undefined] would be a [TypeError]. *)
Definition titleField (cleaned : string) : outcome string :=
  match Js.splitDigits4 cleaned !! 0%nat with
  | Some piece => Return (Js.trim piece)
  | None => Throw (TypeError "Cannot read properties of undefined")
  end.

(** The function: [None] is the [null] of line 19. *)
Definition sanitizeMovieTitle (title : value)
    : outcome (option SanitizedFields) :=
  if negb (truthy title) then Return None
  else
    match title with
    | Str title =>
        t ← titleField (sanitizedTitle title);
        mret (Some {|
          sanitized_title := t;
          year := match yearMatch title with Some m => m | None => "" end;
          quality :=
            match qualityMatch title with Some m => m | None => "" end;
          keywords := Js.join "," (matchedKeywords title);
        |})
    | _ => Return None
    end.

(** The input type of the sanitizer's contract, [string | null]. *)
Definition nullable (t : option string) : value :=
  match t with
  | Some s => Str s
  | None => Null
  end.

(** ** Titles in normal form

    What the replacements of lines 39-43 and the cut of line 46 leave
    behind: none of the replaced characters, white space only as single
    spaces between other characters, and no run of four digits. *)

Fixpoint allChars (p : ascii → bool) (s : string) : bool :=
  match s with
  | EmptyString => true
  | String c s' => p c && allChars p s'
  end.

(** A character that lines 40-41 leave in place. *)
Definition kept (c : ascii) : bool :=
  negb (Ascii.eqb c ".") && negb (Js.isBracket c).

(** Every white-space character is a space and follows a character that is
    not white space; [afterSpace] says what precedes the string. *)
Fixpoint singleSpaced (afterSpace : bool) (s : string) : bool :=
  match s with
  | EmptyString => true
  | String c s' =>
      if Js.isSpace c
      then Ascii.eqb c " " && negb afterSpace && singleSpaced true s'
      else singleSpaced false s'
  end.

(** [/\d{4}/] matches nowhere. *)
Fixpoint noDigits4 (s : string) : bool :=
  negb (Js.digits4At s) &&
  match s with
  | EmptyString => true
  | String _ s' => noDigits4 s'
  end.

Record tidy (s : string) : Prop := {
  tidy_kept : allChars kept s = true;
  tidy_spaced : singleSpaced false s = true;
  tidy_digits : noDigits4 s = true;
  tidy_trimmed : Js.trim s = s;
}.

(* ================================================================== *)
(** * [processMovies], lines 56-71 *)
(* ================================================================== *)

(** An element of [movieData] (line 209). *)
Record Movie : Type := {
  original_title : value;
  url : value;
  size : value;
}.

(** A row of the sheet: an array of cells. *)
Definition Row : Type := list value.

(** [row[i]]: reading past the end gives [undefined]. *)
Definition cell (row : Row) (i : nat) : value := default Undefined (row !! i).

(** Lines 59-68, the callback of [movies.map]: the four property reads on
    [sanitized] are a [TypeError] when it is [null]. *)
Definition processMovie (movie : Movie) : outcome Row :=
  sanitized ← sanitizeMovieTitle (original_title movie);
  match sanitized with
  | None => Throw (TypeError "Cannot read properties of null")
  | Some sanitized =>
      mret [ original_title movie; url movie; size movie;
             Str (sanitized_title sanitized); Str (year sanitized);
             Str (quality sanitized); Str (keywords sanitized) ]
  end.

Definition processMovies (movies : list Movie) : outcome (list Row) :=
  mapM processMovie movies.

(* ================================================================== *)
(** * The reconciliation of [updateSheet], lines 83-106 *)
(* ================================================================== *)

(** Line 84, the argument of [new Set]: the first cell of every row below
    the header row, and the empty array when [current.data.values] is
    absent ([None]). *)
Definition priorKeys (values : option (list Row)) : list value :=
  match values with
  | Some rows => (λ row, cell row 0) <$> drop 1 rows
  | None => []
  end.

(** Lines 83-85. *)
Definition existingMovies (values : option (list Row)) : gset value :=
  list_to_set (priorKeys values).

(** Line 87. *)
Definition newMovies (values : option (list Row)) (processedMovies : list Row)
    : list Row :=
  filter (λ m, cell m 0 ∉ existingMovies values) processedMovies.

(** Line 88. *)
Definition oldMovies (values : option (list Row)) (processedMovies : list Row)
    : list Row :=
  filter (λ m, cell m 0 ∈ existingMovies values) processedMovies.

(** Line 93. *)
Definition orderedMovies (values : option (list Row))
    (processedMovies : list Row) : list Row :=
  take 10 (newMovies values processedMovies)
  ++ oldMovies values processedMovies.

(** Lines 96-106. *)
Definition headers : list Row :=
  [ [ Str "original-title"; Str "url"; Str "size"; Str "sanitized-title";
      Str "year"; Str "quality"; Str "keywords" ] ].

(* ================================================================== *)
(** * The outside world and the effects of a run *)
(* ================================================================== *)

(** What a run leaves behind. *)
Inductive Event : Type :=
  | SheetCleared                      (* [values.clear] completed, line 109 *)
  | SheetWritten (rows : list Row)    (* [values.update] completed, line 115 *)
  | ErrorLogged (e : error)           (* [console.error], line 222 *)
  | BrowserClosed.                    (* [browser.close()] completed, line 225 *)

(** A list item of the page: what each of the three [$eval] calls of lines
    198-206 answers before its [.catch]. *)
Record Handle : Type := {
  countitems : outcome string;         (* [el.textContent] of ".countitems" *)
  form_check_input : outcome string;   (* [el.value] of ".form-check-input" *)
  badge : outcome string;              (* [el.textContent] of ".badge" *)
}.

(** The answers of the external collaborators.  The calls of the scroll
    loop are indexed by the cycle they are made in. *)
Record World : Type := {
  launch : outcome unit;                       (* line 127 *)
  newPage : outcome unit;                      (* line 132 *)
  login : outcome unit;                        (* lines 137-143 *)
  openFolder : outcome unit;                   (* lines 147-152 *)
  itemCount : nat → outcome nat;               (* line 159 *)
  scrollToBottom : nat → outcome unit;         (* line 175 *)
  waitForGrowth : nat → outcome unit;          (* lines 177-184 *)
  queryItems : outcome (list Handle);          (* line 194 *)
  getClient : outcome unit;                    (* line 15 *)
  valuesGet : outcome (option (list Row));     (* line 78 *)
  valuesClear : outcome unit;                  (* line 109 *)
  valuesUpdate : list Row → outcome unit;      (* line 115 *)
  browserClose : outcome unit;                 (* line 225 *)
}.

(** An effectful computation: it extends the trace of events and ends in
    an outcome. *)
Definition M (A : Type) : Type := list Event → list Event * outcome A.

#[global] Instance M_ret : MRet M := λ A a tr, (tr, Return a).

#[global] Instance M_bind : MBind M := λ A B k m tr,
  match m tr with
  | (tr', Return a) => k a tr'
  | (tr', Throw e) => (tr', Throw e)
  | (tr', Diverge) => (tr', Diverge)
  end.

Module Eff.

(** [await] of a call with no effect the model observes. *)
Definition await {A} (o : outcome A) : M A := λ tr, (tr, o).

(** [await] of a call whose completion is an event. *)
Definition perform {A} (ev : Event) (o : outcome A) : M A := λ tr,
  match o with
  | Return a => (tr ++ [ev], Return a)
  | _ => (tr, o)
  end.

Definition emit (ev : Event) : M unit := λ tr,
  (tr ++ [ev], Return tt).

(** [promise.catch(() => v)]. *)
Definition catchWith {A} (v : A) (o : outcome A) : outcome A :=
  match o with
  | Throw _ => Return v
  | _ => o
  end.

(** [try { body } catch (error) { handler(error) } finally { final }]:
    [final] runs after [body], or after [handler] when [body] threw; a
    throw of [final] replaces the result. *)
Definition tryCatchFinally {A} (body : M A) (handler : error → M A)
    (final : M unit) : M A := λ tr,
  let '(tr1, r1) :=
    match body tr with
    | (tr', Throw e) => handler e tr'
    | other => other
    end in
  match r1 with
  | Diverge => (tr1, Diverge)
  | _ =>
      match final tr1 with
      | (tr2, Return _) => (tr2, r1)
      | (tr2, Throw e) => (tr2, Throw e)
      | (tr2, Diverge) => (tr2, Diverge)
      end
  end.

End Eff.

(** A computation that leaves no event. *)
Definition quiet {A} (m : M A) : Prop := ∀ tr, (m tr).1 = tr.

(* ================================================================== *)
(** * [authorize] and [updateSheet] *)
(* ================================================================== *)

(** Lines 9-16. *)
Definition authorize (w : World) : M unit := Eff.await (getClient w).

(** Lines 73-123. *)
Definition updateSheet (w : World) (processedMovies : list Row) : M unit :=
  values ← Eff.await (valuesGet w);
  let rows := headers ++ orderedMovies values processedMovies in
  Eff.perform SheetCleared (valuesClear w);;
  Eff.perform (SheetWritten rows) (valuesUpdate w rows).

(* ================================================================== *)
(** * [crawlAndUpdate], lines 125-227 *)
(* ================================================================== *)

(** The variables of the scroll loop (lines 155-156); [cycles] counts the
    iterations made so far and indexes the answers of the page. *)
Record ScrollState : Type := {
  prevContentLength : nat;
  noChangeCount : nat;
  cycles : nat;
}.

Definition scrollStart : ScrollState :=
  {| prevContentLength := 0; noChangeCount := 0; cycles := 0 |}.

(** Lines 167-174: the variables after a cycle that read
    [currentContentLength]. *)
Definition observe (st : ScrollState) (currentContentLength : nat)
    : ScrollState :=
  {| prevContentLength := currentContentLength;
     noChangeCount :=
       if currentContentLength =? prevContentLength st
       then S (noChangeCount st) else 0;
     cycles := S (cycles st) |}.

(** Lines 158-191.  One unit of fuel is one test of the loop condition that
    enters the body. *)
Fixpoint scrollLoop (fuel : nat) (w : World) (st : ScrollState)
    : M ScrollState :=
  if noChangeCount st <? 5 then
    match fuel with
    | 0 => Eff.await Diverge
    | S fuel' =>
        currentContentLength ← Eff.await (itemCount w (cycles st));
        let st' := observe st currentContentLength in
        Eff.await (scrollToBottom w (cycles st));;
        Eff.await (Eff.catchWith tt (waitForGrowth w (cycles st)));;
        if 5 <=? noChangeCount st' then mret st'
        else scrollLoop fuel' w st'
    end
  else mret st.

(** Lines 198-210, the body of the extraction loop: the movie pushed for
    one list item, if any. *)
Definition extractItem (div : Handle) : M (option Movie) :=
  originalTitle ←
    Eff.await (Eff.catchWith Null ((λ s, Str (Js.trim s)) <$> countitems div));
  dlurl ← Eff.await (Eff.catchWith Null (Str <$> form_check_input div));
  size ←
    Eff.await (Eff.catchWith Null ((λ s, Str (Js.trim s)) <$> badge div));
  mret (if truthy originalTitle && truthy dlurl && truthy size
        then Some {| original_title := originalTitle;
                     url := dlurl; size := size |}
        else None).

(** Lines 194-211: [movieData] after the loop. *)
Definition extractMovies (w : World) : M (list Movie) :=
  divs ← Eff.await (queryItems w);
  pushed ← mapM extractItem divs;
  mret (omap id pushed).

(** Lines 136-220, the body of the [try]. *)
Definition pipeline (fuel : nat) (w : World) : M unit :=
  Eff.await (login w);;
  Eff.await (openFolder w);;
  scrollLoop fuel w scrollStart;;
  movieData ← extractMovies w;
  authorize w;;
  processedMovies ← Eff.await (processMovies movieData);
  updateSheet w processedMovies.

Definition crawlAndUpdate (fuel : nat) (w : World) : M unit :=
  Eff.await (launch w);;
  Eff.await (newPage w);;
  Eff.tryCatchFinally
    (pipeline fuel w)
    (λ error, Eff.emit (ErrorLogged error))
    (Eff.perform BrowserClosed (browserClose w)).

(** Line 229: the run, from an empty trace. *)
Definition run (fuel : nat) (w : World) : list Event * outcome unit :=
  crawlAndUpdate fuel w [].

(** The loop variables after [k] cycles that read the counts [obs 0],
    ..., [obs (k - 1)]. *)
Fixpoint stateAfter (obs : nat → nat) (k : nat) : ScrollState :=
  match k with
  | 0 => scrollStart
  | S k' => observe (stateAfter obs k') (obs k')
  end.

(** The count the loop compares the count of cycle [j] with: the count of
    the cycle before, and 0 in the first cycle (line 155). *)
Definition previousCount (obs : nat → nat) (j : nat) : nat :=
  match j with
  | 0 => 0
  | S j' => obs j'
  end.

(** The last 5 of the first [k] reads each gave the count read before it:
    the condition under which line 167 has counted 5 times in a row. *)
Definition unchangedFor5 (obs : nat → nat) (k : nat) : Prop :=
  5 ≤ k ∧ ∀ j, k - 5 ≤ j < k → obs j = previousCount obs j.

(** The last 5 of the first [k] reads each gave no more than the count read
    before it: five consecutive cycles without growth. *)
Definition noGrowthFor5 (obs : nat → nat) (k : nat) : Prop :=
  5 ≤ k ∧ ∀ j, k - 5 ≤ j < k → obs j ≤ previousCount obs j.



(* ================================================================== *)
(** * The reconciliation contract of the specification *)
(* ================================================================== *)

(** The dedup key of a record. *)
Definition originalTitle (m : Row) : value := cell m 0.

(** Section 4.4 of the specification, in its words: the identity set of
    [priorRecords], the fresh records outside it cut to [admitCap], then
    the entirety of [priorRecords]. *)
Definition reconcile_spec (freshRecords priorRecords : list Row)
    (admitCap : nat) : list Row :=
  let identities : gset value :=
    list_to_set (originalTitle <$> priorRecords) in
  let newOnes :=
    filter (λ m, originalTitle m ∉ identities) freshRecords in
  take admitCap newOnes ++ priorRecords.

(* ================================================================== *)
(** * Shapes of matches *)
(* ================================================================== *)

(** A text [/(20|19)\d{2}/] matches in full. *)
Definition isYear (m : string) : bool :=
  match m with
  | String a (String b (String c (String d EmptyString))) =>
      (String.eqb (String a (String b "")) "20"
       || String.eqb (String a (String b "")) "19")
      && Js.isDigit c && Js.isDigit d
  | _ => false
  end.

(** The alternatives of line 23. *)
Definition qualityTags : list string := ["1080p"; "720p"; "2160p"].

(** One of the extensions of line 39, in any letter case. *)
Definition isExtension (e : string) : bool :=
  existsb (λ x, String.eqb (Js.toUpperCase e) (Js.toUpperCase x))
    Js.extensions.

(** The code unit before a position: the last one of what precedes it in
    the input, or [prev] at the start. *)
Definition before (prev : option ascii) (pre : string) : option ascii :=
  match Js.last pre with
  | Some c => Some c
  | None => prev
  end.

(** [m] occurs in [s] between [pre] and [post] with no word character on
    either side: a match of [\b m \b]. *)
Definition delimited (s pre m post : string) : Prop :=
  s = (pre ++ m ++ post)%string
  ∧ Js.isWordOpt (Js.last pre) = false
  ∧ Js.isWordOpt (Js.first post) = false.

(** The rows of a table all have the width of the header row. *)
Definition sevenColumns (rows : list Row) : Prop :=
  Forall (λ row, length row = 7) rows.

(** A complete record of [movieData]: three non-empty strings, the title
    and the size without surrounding white space. *)
Definition complete (m : Movie) : Prop :=
  ∃ t u s, original_title m = Str t ∧ url m = Str u ∧ size m = Str s
         ∧ t ≠ "" ∧ u ≠ "" ∧ s ≠ ""
         ∧ Js.trim t = t ∧ Js.trim s = s.

(** What the loop variables say about the reads made so far: the streak
    counts reads, and the reads it counts all gave the count that is now in
    [prevContentLength]. *)
Definition streakOfReads (w : World) (st : ScrollState) : Prop :=
  noChangeCount st ≤ cycles st
  ∧ ∀ i, cycles st - noChangeCount st ≤ i < cycles st →
         itemCount w i = Return (prevContentLength st).

(* ================================================================== *)
(** * Concrete inputs *)
(* ================================================================== *)

Module Scenario.

Definition label (p : string) (n : nat) : string :=
  (p ++ String (ascii_of_nat (48 + n)) "")%string.

(** A row as [processMovies] builds it for a title without year, quality
    or keyword. *)
Definition fresh (title : string) : Row :=
  [ Str title; Str "https://fresh"; Str "2 GB";
    Str title; Str ""; Str ""; Str "" ].

(** A row as the read of the range A:C returns it. *)
Definition prior (title : string) : Row :=
  [ Str title; Str "https://prior"; Str "1 GB" ].

Definition sheet (priorRecords : list Row) : option (list Row) :=
  Some ([ Str "original-title"; Str "url"; Str "size" ] :: priorRecords).

(** The instance of the specification: 50 prior rows, 12 new and 3
    already-known fresh records. *)
Definition prior50 : list Row := (λ n, prior (label "old" n)) <$> seq 0 50.

Definition fresh15 : list Row :=
  ((λ n, fresh (label "new" n)) <$> seq 0 12)
  ++ ((λ n, fresh (label "old" n)) <$> seq 0 3).

Definition item (title url size : string) : Handle :=
  {| countitems := Return title;
     form_check_input := Return url;
     badge := Return size |}.

(** A list item without its size badge. *)
Definition brokenItem : Handle :=
  {| countitems := Return "Alien.1979.mkv";
     form_check_input := Return "https://alien";
     badge := Throw (Rejected "failed to find element .badge") |}.

Definition items : list Handle :=
  [ item " Heat.1995.1080p.mkv " "https://heat" "12 GB";
    brokenItem;
    item "old0" "https://old0" "3 GB" ].

(** A world where every call succeeds: the page shows [counts i] items in
    cycle [i], waiting for growth always times out. *)
Definition calm (counts : nat → nat) (values : option (list Row)) : World :=
  {| launch := Return ();
     newPage := Return ();
     login := Return ();
     openFolder := Return ();
     itemCount := λ i, Return (counts i);
     scrollToBottom := λ _, Return ();
     waitForGrowth := λ _, Throw (Rejected "waiting failed: timeout");
     queryItems := Return items;
     getClient := Return ();
     valuesGet := Return values;
     valuesClear := Return ();
     valuesUpdate := λ _, Return ();
     browserClose := Return () |}.

(** The page grows to three items and stays there. *)
Definition counts3 (i : nat) : nat := i `min` 3.

Definition calmWorld : World := calm counts3 (sheet prior50).

(** The same world, where the credentials are refused. *)
Definition unauthorized : World :=
  {| launch := Return ();
     newPage := Return ();
     login := Return ();
     openFolder := Return ();
     itemCount := λ i, Return (counts3 i);
     scrollToBottom := λ _, Return ();
     waitForGrowth := λ _, Throw (Rejected "waiting failed: timeout");
     queryItems := Return items;
     getClient := Throw (Rejected "could not load credentials.json");
     valuesGet := Return (sheet prior50);
     valuesClear := Return ();
     valuesUpdate := λ _, Return ();
     browserClose := Return () |}.



(** A page that shows 10 items and then loses one per cycle. *)
Definition shrinking (i : nat) : nat := 10 - i.

End Scenario.

(* ================================================================== *)
(** * Properties of the string operations *)
(* ================================================================== *)

Section StringFacts.

Lemma append_cons c (a b : string) :
  (String c a ++ b)%string = String c (a ++ b).
Proof. reflexivity. Qed.

Lemma append_nil_l (a : string) : ("" ++ a)%string = a.
Proof. reflexivity. Qed.

Lemma stripPrefix_spec p s r :
  Js.stripPrefix p s = Some r ↔ s = (p ++ r)%string.
Proof.
  revert s. induction p as [|a p IH]; intros s; simpl.
  - rewrite append_nil_l. split; [intros [= ->] | intros ->]; reflexivity.
  - rewrite append_cons. destruct s as [|b s]; [split; discriminate|].
    destruct (Ascii.eqb_spec a b) as [->|Hne].
    + rewrite IH. split; [intros -> | intros [= ->]]; reflexivity.
    + split; [discriminate | intros [= ? _]; congruence].
Qed.

Lemma startsWith_spec s p :
  Js.startsWith s p = true ↔ ∃ r, s = (p ++ r)%string.
Proof.
  unfold Js.startsWith. destruct (Js.stripPrefix p s) as [r|] eqn:E.
  - apply stripPrefix_spec in E. split; eauto.
  - split; [discriminate|]. intros [r Hr].
    apply stripPrefix_spec in Hr. congruence.
Qed.


(** [includes] is occurrence as a substring. *)
Lemma includes_spec s t :
  Js.includes s t = true ↔ ∃ pre post, s = (pre ++ t ++ post)%string.
Proof.
  induction s as [|c s IH]; simpl.
  - rewrite orb_false_r, startsWith_spec. split.
    + intros [r Hr]. by exists "", r.
    + intros (pre & post & H). destruct pre; [by exists post|discriminate].
  - rewrite orb_true_iff, startsWith_spec, IH. split.
    + intros [[r Hr] | (pre & post & H)].
      * by exists "", r.
      * exists (String c pre), post. by rewrite H.
    + intros (pre & post & H). destruct pre as [|x pre].
      * left. by exists post.
      * right. injection H as _ H. by exists pre, post.
Qed.


Lemma splitFrom_cons skip s : ∃ piece pieces, Js.splitFrom skip s = piece :: pieces.
Proof.
  revert skip. induction s as [|c s IH]; intros [|k]; [by eexists _, _ ..| |].
  - change (Js.splitFrom 0 (String c s)) with
      (if Js.digits4At (String c s) then "" :: Js.splitFrom 3 s
       else match Js.splitFrom 0 s with
            | piece :: pieces => String c piece :: pieces
            | [] => [String c ""]
            end).
    destruct (Js.digits4At (String c s)); [by eexists _, _|].
    destruct (IH 0) as (p & ps & ->). by eexists _, _.
  - apply (IH k).
Qed.

(** Line 46 never reads past the array [split] returns. *)
Lemma titleField_returns cleaned : ∃ t, titleField cleaned = Return t.
Proof.
  unfold titleField, Js.splitDigits4.
  destruct (splitFrom_cons 0 cleaned) as (p & ps & ->). simpl. eauto.
Qed.

End StringFacts.

Lemma truthy_Str v : truthy v = true ↔ ∃ s, v = Str s ∧ s ≠ "".
Proof.
  destruct v as [| |s]; simpl; try (split; [discriminate | intros (? & ? & ?); discriminate]).
  rewrite negb_true_iff. destruct (String.eqb_spec s ""); split; try done.
  - intros (s' & [= <-] & ?). done.
  - intros _. eauto.
Qed.

Lemma sanitize_nonempty s :
  s ≠ "" →
  ∃ t, titleField (sanitizedTitle s) = Return t ∧
    sanitizeMovieTitle (Str s) = Return (Some {|
      sanitized_title := t;
      year := default "" (yearMatch s);
      quality := default "" (qualityMatch s);
      keywords := Js.join "," (matchedKeywords s) |}).
Proof.
  intros Hs. destruct (titleField_returns (sanitizedTitle s)) as [t Ht].
  exists t. split; [done|]. unfold sanitizeMovieTitle. simpl.
  destruct (String.eqb_spec s ""); [done|]. simpl.
  rewrite Ht. simpl. reflexivity.
Qed.

(* ================================================================== *)
(** * The sanitizer *)
(* ================================================================== *)

(** C4, as the specification gives it: the keywords of the example are
    not "BluRay,REMUX". *)
Lemma example_keywords_not_BluRay_first :
  ¬ sanitizeMovieTitle (Str "The.Thing.2011.1080p.BluRay.REMUX.mkv") =
    Return (Some {| sanitized_title := "The Thing"; year := "2011";
                    quality := "1080p"; keywords := "BluRay,REMUX" |}).
Proof. vm_compute. discriminate. Qed.

(** C4, amended: sanitizing "The.Thing.2011.1080p.BluRay.REMUX.mkv" yields
    sanitized-title "The Thing", year "2011", quality "1080p" and keywords
    "REMUX,BluRay": the matched tags come in the order of the vocabulary,
    where REMUX is declared before BluRay. *)
Theorem example_The_Thing :
  sanitizeMovieTitle (Str "The.Thing.2011.1080p.BluRay.REMUX.mkv") =
    Return (Some {| sanitized_title := "The Thing"; year := "2011";
                    quality := "1080p"; keywords := "REMUX,BluRay" |})
  ∧ matchedKeywords "The.Thing.2011.1080p.BluRay.REMUX.mkv"
    = ["REMUX"; "BluRay"].
Proof. split; vm_compute; reflexivity. Qed.

(** C7: on its contract type [string | null] the sanitizer returns [null]
    exactly for [null] and for the empty string; on every other string it
    returns, without throwing, an object whose [year] and [quality] are the
    matched text, and the empty string when the expression has no match. *)
Theorem sanitize_null_only_when_empty (t : option string) :
  (sanitizeMovieTitle (nullable t) = Return None ↔ t = None ∨ t = Some "")
  ∧ (∀ s, t = Some s → s ≠ "" →
       ∃ r, sanitizeMovieTitle (nullable t) = Return (Some r)
          ∧ (yearMatch s = None → year r = "")
          ∧ (qualityMatch s = None → quality r = "")
          ∧ (∀ m, yearMatch s = Some m → year r = m)
          ∧ (∀ m, qualityMatch s = Some m → quality r = m)).
Proof.
  assert (Hne : ∀ s, s ≠ "" →
       ∃ r, sanitizeMovieTitle (Str s) = Return (Some r)
          ∧ (yearMatch s = None → year r = "")
          ∧ (qualityMatch s = None → quality r = "")
          ∧ (∀ m, yearMatch s = Some m → year r = m)
          ∧ (∀ m, qualityMatch s = Some m → quality r = m)).
  { intros s Hs. destruct (sanitize_nonempty s Hs) as (x & _ & ->).
    eexists. split; [reflexivity|]. simpl.
    repeat split; intros; by simplify_option_eq. }
  split.
  - destruct t as [s|]; simpl.
    + destruct (decide (s = "")) as [->|Hs].
      * split; [by right | reflexivity].
      * destruct (Hne s Hs) as (r & -> & _).
        split; [discriminate | intros [|[=]]; done].
    + split; [by left | reflexivity].
  - intros s -> Hs. simpl. by apply Hne.
Qed.

Lemma sanitize_null_only_when_empty_witness :
  ∃ r, sanitizeMovieTitle (Str "Heat") = Return (Some r)
     ∧ year r = "" ∧ quality r = "".
Proof.
  destruct (sanitize_null_only_when_empty (Some "Heat")) as [_ H].
  destruct (H "Heat" eq_refl) as (r & Hr & Hy & Hq & _); [discriminate|].
  exists r. split; [exact Hr|]. split; [apply Hy | apply Hq]; reflexivity.
Defined.

(* ================================================================== *)
(** * Extraction and processing *)
(* ================================================================== *)

Lemma M_bind_Return {A B} (m : M A) (k : A → M B) tr tr' b :
  (m ≫= k) tr = (tr', Return b) →
  ∃ tr1 a, m tr = (tr1, Return a) ∧ k a tr1 = (tr', Return b).
Proof.
  unfold mbind, M_bind. destruct (m tr) as [tr1 [a| |]]; [eauto | done..].
Qed.

(** The guard of line 208: a pushed movie has three truthy fields. *)
Lemma extractItem_pushed div tr tr' m :
  extractItem div tr = (tr', Return (Some m)) →
  truthy (original_title m) = true.
Proof.
  unfold extractItem. intros H.
  apply M_bind_Return in H as (? & t & _ & H).
  apply M_bind_Return in H as (? & u & _ & H).
  apply M_bind_Return in H as (? & s & _ & H).
  injection H as _ H.
  destruct (truthy t) eqn:Ht; simpl in H; [|done].
  destruct (truthy u && truthy s); [|done]. by injection H as <-.
Qed.

Lemma extractItems_pushed divs tr tr' pushed :
  mapM extractItem divs tr = (tr', Return pushed) →
  Forall (λ m, truthy (original_title m) = true) (omap id pushed).
Proof.
  revert tr tr' pushed. induction divs as [|div divs IH]; intros tr tr' pushed H.
  - injection H as _ <-. constructor.
  - simpl in H.
    apply M_bind_Return in H as (tr1 & o & Ho & H).
    apply M_bind_Return in H as (tr2 & os & Hos & H).
    injection H as _ <-. simpl. apply IH in Hos.
    destruct o as [m|]; simpl; [|done].
    constructor; [by eapply extractItem_pushed | done].
Qed.

(** Every record the extractor emits has a non-null, non-empty
    original-title. *)
Lemma extractMovies_titles w tr tr' movieData :
  extractMovies w tr = (tr', Return movieData) →
  Forall (λ m, truthy (original_title m) = true) movieData.
Proof.
  unfold extractMovies. intros H.
  apply M_bind_Return in H as (? & divs & _ & H).
  apply M_bind_Return in H as (? & pushed & Hp & H).
  injection H as _ <-. by eapply extractItems_pushed.
Qed.

Lemma processMovie_returns movie :
  truthy (original_title movie) = true →
  ∃ r, sanitizeMovieTitle (original_title movie) = Return (Some r)
     ∧ processMovie movie =
         Return [ original_title movie; url movie; size movie;
                  Str (sanitized_title r); Str (year r);
                  Str (quality r); Str (keywords r) ].
Proof.
  intros (s & Hs & Hne)%truthy_Str. unfold processMovie. rewrite Hs.
  destruct (sanitize_nonempty s Hne) as (t & _ & ->). eexists. by split.
Qed.

Lemma processMovies_returns movies :
  Forall (λ m, truthy (original_title m) = true) movies →
  ∃ rows, processMovies movies = Return rows
        ∧ length rows = length movies.
Proof.
  unfold processMovies. induction 1 as [|m ms Hm _ (rows & IH & Hlen)].
  - by exists [].
  - destruct (processMovie_returns m Hm) as (r & _ & Hr).
    eexists. simpl. rewrite Hr. simpl. rewrite IH. simpl.
    split; [reflexivity|]. simpl. by rewrite Hlen.
Qed.

(** C9: every record [movieData] the extraction loop produces has a
    non-null, non-empty original-title; on such a list each call of the
    sanitizer inside [processMovies] returns an object, not [null], and
    [processMovies] returns one row per record without throwing. *)
Theorem processMovies_of_extracted_never_raises w tr tr' movieData :
  extractMovies w tr = (tr', Return movieData) →
  Forall (λ m, ∃ r, sanitizeMovieTitle (original_title m) = Return (Some r))
    movieData
  ∧ ∃ rows, processMovies movieData = Return rows
          ∧ length rows = length movieData.
Proof.
  intros Htitles%extractMovies_titles. split.
  - eapply Forall_impl; [exact Htitles|]. intros m Hm. simpl in Hm.
    destruct (processMovie_returns m Hm) as (r & Hr & _). eauto.
  - by apply processMovies_returns.
Qed.

Lemma processMovies_of_extracted_never_raises_witness :
  ∃ rows, processMovies
            [ {| original_title := Str "Heat.1995.1080p.mkv";
                 url := Str "https://heat"; size := Str "12 GB" |};
              {| original_title := Str "old0";
                 url := Str "https://old0"; size := Str "3 GB" |} ]
          = Return rows
        ∧ length rows = 2.
Proof.
  apply (processMovies_of_extracted_never_raises Scenario.calmWorld [] []).
  vm_compute. reflexivity.
Defined.

(* ================================================================== *)
(** * Keyword detection *)
(* ================================================================== *)




(* ================================================================== *)
(** * Reconciliation *)
(* ================================================================== *)

Section Reconciliation.

Variable values : option (list Row).
Variable processedMovies : list Row.

Lemma newMovies_spec m :
  m ∈ newMovies values processedMovies ↔
  m ∈ processedMovies ∧ originalTitle m ∉ priorKeys values.
Proof.
  unfold newMovies, existingMovies.
  rewrite list_elem_of_filter, not_elem_of_list_to_set. tauto.
Qed.

Lemma oldMovies_spec m :
  m ∈ oldMovies values processedMovies ↔
  m ∈ processedMovies ∧ originalTitle m ∈ priorKeys values.
Proof.
  unfold oldMovies, existingMovies.
  rewrite list_elem_of_filter, elem_of_list_to_set. tauto.
Qed.

Lemma orderedMovies_sublists :
  take 10 (newMovies values processedMovies) `sublist_of` processedMovies
  ∧ oldMovies values processedMovies `sublist_of` processedMovies.
Proof.
  split; [|apply sublist_filter].
  etrans; [apply sublist_take | apply sublist_filter].
Qed.

Lemma orderedMovies_elem_of m :
  m ∈ orderedMovies values processedMovies → m ∈ processedMovies.
Proof.
  destruct orderedMovies_sublists as [Hn Ho].
  unfold orderedMovies. rewrite elem_of_app.
  intros [H|H]; eapply elem_of_sublist; eauto.
Qed.

Lemma orderedMovies_length :
  length (orderedMovies values processedMovies) =
  10 `min` length (newMovies values processedMovies)
  + length (oldMovies values processedMovies).
Proof. unfold orderedMovies. by rewrite length_app, length_take. Qed.

(** The keys of the merged rows, as a set. *)
Lemma orderedMovies_keys :
  list_to_set (originalTitle <$> orderedMovies values processedMovies)
  =@{gset value}
  list_to_set (originalTitle <$> take 10 (newMovies values processedMovies))
  ∪ (list_to_set (originalTitle <$> processedMovies)
     ∩ list_to_set (priorKeys values)).
Proof.
  apply set_eq. intros k. unfold orderedMovies.
  rewrite fmap_app, list_to_set_app, !elem_of_union, elem_of_intersection.
  rewrite !elem_of_list_to_set. apply or_iff_compat_l.
  rewrite !list_elem_of_fmap. split.
  - intros (m & -> & [Hm Hk]%oldMovies_spec). eauto.
  - intros [(m & -> & Hm) Hk]. exists m. by rewrite oldMovies_spec.
Qed.

End Reconciliation.

Lemma updateSheet_trace w processedMovies values tr :
  valuesGet w = Return values →
  valuesClear w = Return () →
  (∀ rows, valuesUpdate w rows = Return ()) →
  updateSheet w processedMovies tr =
    (tr ++ [ SheetCleared;
             SheetWritten (headers ++ orderedMovies values processedMovies) ],
     Return ()).
Proof.
  intros Hget Hclear Hupdate. unfold updateSheet, mbind, M_bind, Eff.await.
  rewrite Hget. unfold Eff.perform. rewrite Hclear, Hupdate.
  by rewrite <- app_assoc.
Qed.

(** C1, as the specification gives it: with one prior record and one new
    fresh record the merged output is not the fresh record followed by the
    prior one; the prior record is not written back. *)
Lemma reconcile_loses_unseen_prior :
  let priorRecords := [Scenario.prior "A"] in
  let freshRecords := [Scenario.fresh "B"] in
  let merged := orderedMovies (Scenario.sheet priorRecords) freshRecords in
  merged ≠ reconcile_spec freshRecords priorRecords 10
  ∧ merged = [Scenario.fresh "B"]
  ∧ Str "A" ∉ originalTitle <$> merged.
Proof.
  split; [|split].
  - vm_compute. discriminate.
  - vm_compute. reflexivity.
  - apply (bool_decide_unpack _). vm_compute. reflexivity.
Qed.

(** C1, amended: for every list of fresh records and every content of the
    sheet, the rows [updateSheet] writes below the header row are the first
    10 fresh records whose original-title is not a key of the sheet,
    followed by the fresh records whose original-title is a key of the
    sheet.  Hence the key set of the merged rows is the capped new keys
    together with the keys of the sheet that were observed again, and every
    merged row is a fresh record: a prior record that was not observed
    again is not written back. *)
Theorem updateSheet_writes_fresh_records w processedMovies values tr :
  valuesGet w = Return values →
  valuesClear w = Return () →
  (∀ rows, valuesUpdate w rows = Return ()) →
  ∃ merged,
    updateSheet w processedMovies tr =
      (tr ++ [SheetCleared; SheetWritten (headers ++ merged)], Return ())
    ∧ merged =
        take 10 (filter (λ m, originalTitle m ∉ priorKeys values)
                   processedMovies)
        ++ filter (λ m, originalTitle m ∈ priorKeys values) processedMovies
    ∧ list_to_set (originalTitle <$> merged) =@{gset value}
        list_to_set
          (originalTitle <$>
             take 10 (filter (λ m, originalTitle m ∉ priorKeys values)
                        processedMovies))
        ∪ (list_to_set (originalTitle <$> processedMovies)
           ∩ list_to_set (priorKeys values))
    ∧ (∀ m, m ∈ merged → m ∈ processedMovies).
Proof.
  intros Hget Hclear Hupdate.
  exists (orderedMovies values processedMovies).
  split; [by apply updateSheet_trace|].
  assert (Hnew : newMovies values processedMovies =
    filter (λ m, originalTitle m ∉ priorKeys values) processedMovies).
  { apply list_filter_iff. intros m. unfold existingMovies.
    by rewrite not_elem_of_list_to_set. }
  assert (Hold : oldMovies values processedMovies =
    filter (λ m, originalTitle m ∈ priorKeys values) processedMovies).
  { apply list_filter_iff. intros m. unfold existingMovies.
    by rewrite elem_of_list_to_set. }
  split; [unfold orderedMovies; by rewrite Hnew, Hold|].
  split; [rewrite <- Hnew; apply orderedMovies_keys|].
  apply orderedMovies_elem_of.
Qed.

Lemma updateSheet_writes_fresh_records_witness :
  ∃ merged,
    updateSheet Scenario.calmWorld Scenario.fresh15 [] =
      ([SheetCleared; SheetWritten (headers ++ merged)], Return ())
    ∧ length merged = 13.
Proof.
  destruct (updateSheet_writes_fresh_records Scenario.calmWorld
              Scenario.fresh15 (Scenario.sheet Scenario.prior50) [])
    as (merged & Htrace & Hmerged & _); [reflexivity..|].
  exists merged. split; [exact Htrace|].
  rewrite Hmerged. vm_compute. reflexivity.
Defined.

(** C2, as the specification gives it: in the instance of 12 new and 3
    already-known fresh records over 50 prior rows the merged output has 13
    rows, not 60; the prior rows are not its suffix, and the row written
    for an already-known title is the fresh one, not the prior one. *)
Lemma instance_has_13_rows :
  let merged := orderedMovies (Scenario.sheet Scenario.prior50)
                  Scenario.fresh15 in
  length Scenario.prior50 = 50
  ∧ length (newMovies (Scenario.sheet Scenario.prior50) Scenario.fresh15) = 12
  ∧ length (oldMovies (Scenario.sheet Scenario.prior50) Scenario.fresh15) = 3
  ∧ length merged ≠ 60
  ∧ drop (length merged - 50) merged ≠ Scenario.prior50
  ∧ Scenario.fresh "old0" ∈ merged
  ∧ Scenario.prior "old0" ∉ merged.
Proof.
  repeat split;
    try (vm_compute; (reflexivity || discriminate));
    apply (bool_decide_unpack _); vm_compute; reflexivity.
Qed.

(** C2, amended: the merged output is at most 10 new fresh records followed
    by the already-known fresh records, which keep the order and the field
    values of this crawl (the prior rows are only read for their keys and
    are not written back).  With [n] new and [k] already-known fresh
    records it has [min 10 n + k] rows: 13 in the instance of 12 new and 3
    already-known records, whatever the number of prior rows. *)
Theorem merged_suffix_is_known_fresh values processedMovies n k :
  length (newMovies values processedMovies) = n →
  length (oldMovies values processedMovies) = k →
  orderedMovies values processedMovies =
    take 10 (newMovies values processedMovies)
    ++ oldMovies values processedMovies
  ∧ oldMovies values processedMovies `sublist_of` processedMovies
  ∧ (∀ m, m ∈ oldMovies values processedMovies ↔
          m ∈ processedMovies ∧ originalTitle m ∈ priorKeys values)
  ∧ length (orderedMovies values processedMovies) = 10 `min` n + k.
Proof.
  intros <- <-. split; [reflexivity|].
  split; [apply orderedMovies_sublists|].
  split; [apply oldMovies_spec | apply orderedMovies_length].
Qed.

Lemma merged_suffix_is_known_fresh_witness :
  length (orderedMovies (Scenario.sheet Scenario.prior50) Scenario.fresh15)
  = 13.
Proof.
  apply (merged_suffix_is_known_fresh
           (Scenario.sheet Scenario.prior50) Scenario.fresh15 12 3);
    vm_compute; reflexivity.
Defined.

(** C3, as the specification gives it: a title that occurs twice among the
    fresh records is written twice, even over an empty sheet. *)
Lemma repeated_fresh_title_is_written_twice :
  let freshRecords := [Scenario.fresh "A"; Scenario.fresh "A"] in
  NoDup (priorKeys (Scenario.sheet []))
  ∧ ¬ NoDup (originalTitle <$> orderedMovies (Scenario.sheet []) freshRecords).
Proof.
  split.
  - constructor.
  - apply (bool_decide_unpack _). vm_compute. reflexivity.
Qed.

(** C3, amended: for every list of fresh records without a repeated
    original-title, and every content of the sheet, the table produced by
    one sync contains no two records with equal original-title. *)
Theorem orderedMovies_NoDup values processedMovies :
  NoDup (originalTitle <$> processedMovies) →
  NoDup (originalTitle <$> orderedMovies values processedMovies).
Proof.
  intros Hfresh. destruct (orderedMovies_sublists values processedMovies)
    as [Hnew Hold].
  unfold orderedMovies. rewrite fmap_app. apply NoDup_app. split; [|split].
  - eapply sublist_NoDup; [exact Hfresh | by apply fmap_sublist].
  - intros key [m [-> Hm]]%list_elem_of_fmap [m' [Hkey Hm']]%list_elem_of_fmap.
    apply elem_of_sublist with (l2 := newMovies values processedMovies) in Hm;
      [|apply sublist_take].
    apply newMovies_spec in Hm as [_ Hm].
    apply oldMovies_spec in Hm' as [_ Hm']. by rewrite Hkey in Hm.
  - eapply sublist_NoDup; [exact Hfresh | by apply fmap_sublist].
Qed.

Lemma orderedMovies_NoDup_witness :
  NoDup (originalTitle <$>
           orderedMovies (Scenario.sheet Scenario.prior50) Scenario.fresh15).
Proof.
  apply orderedMovies_NoDup.
  apply (bool_decide_unpack _). vm_compute. reflexivity.
Defined.

(* ================================================================== *)
(** * The scroll loop *)
(* ================================================================== *)

Lemma bounded_search (P : nat → Prop) `{∀ j, Decision (P j)} n :
  (∀ j, j < n → P j) ∨ (∃ j, j < n ∧ ¬ P j).
Proof.
  induction n as [|n [IH|(j & Hj & HP)]].
  - left. lia.
  - destruct (decide (P n)) as [HP|HP].
    + left. intros j Hj. destruct (decide (j = n)) as [->|]; [done|].
      apply IH. lia.
    + right. exists n. split; [lia | done].
  - right. exists j. split; [lia | done].
Qed.

Lemma least_witness (P : nat → Prop) `{∀ j, Decision (P j)} k :
  P k → ∃ n, P n ∧ ∀ j, j < n → ¬ P j.
Proof.
  induction k as [k IH] using lt_wf_ind. intros Hk.
  destruct (bounded_search (λ j, ¬ P j) k) as [Hnone|(j & Hj & HP)].
  - by exists k.
  - apply (IH j Hj). by destruct (decide (P j)).
Qed.

Section Scroll.

Variable w : World.
Variable obs : nat → nat.

(** The page answers every count, and no scroll or wait hangs or, for the
    scroll, throws. *)
Hypothesis counts : ∀ i, itemCount w i = Return (obs i).
Hypothesis scrolls : ∀ i, scrollToBottom w i = Return ().
Hypothesis waits : ∀ i, waitForGrowth w i ≠ Diverge.

Lemma stateAfter_cycles k : cycles (stateAfter obs k) = k.
Proof. induction k; simpl; congruence. Qed.

Lemma streak_step k :
  noChangeCount (stateAfter obs (S k)) ≤ S (noChangeCount (stateAfter obs k)).
Proof. simpl. case_match; lia. Qed.

(** One pass through the body, lines 159-190. *)
Lemma scrollLoop_step fuel k tr :
  noChangeCount (stateAfter obs k) < 5 →
  scrollLoop (S fuel) w (stateAfter obs k) tr =
    if 5 <=? noChangeCount (stateAfter obs (S k))
    then (tr, Return (stateAfter obs (S k)))
    else scrollLoop fuel w (stateAfter obs (S k)) tr.
Proof.
  intros Hlt. simpl scrollLoop.
  apply Nat.ltb_lt in Hlt as ->.
  unfold mbind, M_bind, Eff.await.
  rewrite stateAfter_cycles, counts, scrolls.
  specialize (waits k). destruct (waitForGrowth w k); [| |done];
    simpl; by case_match.
Qed.

(** The loop runs until the streak first reaches 5. *)
Lemma scrollLoop_runs n k fuel tr :
  (∀ j, j < n → noChangeCount (stateAfter obs (k + j)) < 5) →
  5 ≤ noChangeCount (stateAfter obs (k + n)) →
  n ≤ fuel →
  scrollLoop fuel w (stateAfter obs k) tr =
    (tr, Return (stateAfter obs (k + n))).
Proof.
  revert k fuel. induction n as [|n IH]; intros k fuel Hbelow Hn Hfuel.
  - rewrite Nat.add_0_r in *.
    destruct fuel; simpl; by apply Nat.ltb_ge in Hn as ->.
  - destruct fuel as [|fuel]; [lia|].
    rewrite scrollLoop_step by (specialize (Hbelow 0); rewrite Nat.add_0_r in Hbelow; apply Hbelow; lia).
    destruct n as [|n].
    + rewrite Nat.add_1_r in *. by apply Nat.leb_le in Hn as ->.
    + assert (Hlt : noChangeCount (stateAfter obs (S k)) < 5).
      { specialize (Hbelow 1). rewrite Nat.add_1_r in Hbelow.
        apply Hbelow. lia. }
      apply Nat.leb_gt in Hlt as ->.
      replace (k + S (S n)) with (S k + S n) in * by lia.
      apply IH; [|done|lia].
      intros j Hj. specialize (Hbelow (S j)).
      replace (S k + j) with (k + S j) by lia. apply Hbelow. lia.
Qed.

(** While the loop is running it has not returned. *)
Lemma scrollLoop_fuel_too_small k fuel tr :
  (∀ j, j ≤ fuel → noChangeCount (stateAfter obs (k + j)) < 5) →
  scrollLoop fuel w (stateAfter obs k) tr = (tr, Diverge).
Proof.
  revert k. induction fuel as [|fuel IH]; intros k Hbelow.
  - specialize (Hbelow 0). rewrite Nat.add_0_r in Hbelow.
    simpl. by apply Nat.ltb_lt in Hbelow as ->; [|lia].
  - rewrite scrollLoop_step by (specialize (Hbelow 0); rewrite Nat.add_0_r in Hbelow; apply Hbelow; lia).
    assert (Hlt : noChangeCount (stateAfter obs (S k)) < 5).
    { specialize (Hbelow 1). rewrite Nat.add_1_r in Hbelow.
      apply Hbelow. lia. }
    apply Nat.leb_gt in Hlt as ->. apply IH.
    intros j Hj. replace (S k + j) with (k + S j) by lia.
    apply Hbelow. lia.
Qed.

(** The streak after [k] cycles counts the most recent cycles whose count
    equals the count of the cycle before (0 before the first cycle). *)
Lemma stateAfter_prev k :
  prevContentLength (stateAfter obs k) = previousCount obs k.
Proof. by destruct k. Qed.

Lemma streak_spec k s :
  s ≤ noChangeCount (stateAfter obs k) ↔
  s ≤ k ∧ ∀ j, k - s ≤ j < k → obs j = previousCount obs j.
Proof.
  revert s. induction k as [|k IH]; intros s.
  - simpl. split; [intros; split; [done|lia] | by intros [? _]].
  - destruct s as [|s]; [split; [intros; split; lia | lia]|].
    simpl noChangeCount. rewrite stateAfter_prev.
    destruct (Nat.eqb_spec (obs k) (previousCount obs k)) as [Heq|Hne].
    + rewrite <- Nat.succ_le_mono, IH. split.
      * intros [Hs Hj]. split; [lia|]. intros j Hr.
        destruct (decide (j = k)) as [->|]; [done|]. apply Hj. lia.
      * intros [Hs Hj]. split; [lia|]. intros j Hr. apply Hj. lia.
    + split; [lia|]. intros [_ Hj]. destruct Hne. apply Hj. lia.
Qed.

Lemma stopped_le N j :
  (∀ i, N ≤ i → obs (S i) ≤ obs i) → obs (N + j) ≤ obs N.
Proof.
  intros Hstop. induction j as [|j IH]; [by rewrite Nat.add_0_r|].
  rewrite Nat.add_succ_r. etrans; [apply Hstop; lia | exact IH].
Qed.

(** A count that stops growing is soon read unchanged five times in a
    row. *)
Lemma streak_reached v : ∀ N,
  obs N ≤ v →
  (∀ i, N ≤ i → obs (S i) ≤ obs i) →
  ∃ k, 5 ≤ noChangeCount (stateAfter obs k).
Proof.
  induction v as [v IH] using lt_wf_ind. intros N Hv Hstop.
  destruct (bounded_search (λ j, obs (S (N + j)) = obs (N + j)) 5)
    as [Hflat|(j & Hj & Hdrop)].
  - exists (S N + 5). apply streak_spec. split; [lia|].
    intros j Hj. destruct j as [|j]; [lia|]. simpl.
    replace j with (N + (j - N)) by lia. apply Hflat. lia.
  - pose proof (Hstop (N + j) ltac:(lia)) as Hle.
    pose proof (stopped_le N j Hstop) as Hle'.
    apply (IH (obs (S (N + j))) ltac:(lia) (S (N + j))); [done|].
    intros i Hi. apply Hstop. lia.
Qed.

End Scroll.

(** C6, as the specification gives it: on a page whose count shrinks, five
    consecutive cycles without growth (the cycles 1 to 5) do not end the
    loop; it ends after 16 cycles, when the count has been read unchanged
    5 times. *)
Lemma shrinking_count_resets_streak :
  (∀ i, Scenario.shrinking (S i) ≤ Scenario.shrinking i)
  ∧ noGrowthFor5 Scenario.shrinking 6
  ∧ scrollLoop 6 (Scenario.calm Scenario.shrinking None) scrollStart [] =
      ([], Diverge)
  ∧ scrollLoop 15 (Scenario.calm Scenario.shrinking None) scrollStart [] =
      ([], Diverge)
  ∧ scrollLoop 16 (Scenario.calm Scenario.shrinking None) scrollStart [] =
      ([], Return {| prevContentLength := 0; noChangeCount := 5;
                     cycles := 16 |}).
Proof.
  split; [intros i; unfold Scenario.shrinking; lia|].
  split; [|repeat split; vm_compute; reflexivity].
  split; [lia|]. intros [|j] Hj; [lia|].
  unfold Scenario.shrinking. simpl. lia.
Qed.

(** C6, amended: when every count is read and the counts stop growing from
    some cycle on, the scroll loop returns after a finite number [n] of
    cycles, given fuel for [n] cycles, and is still running with less.  It
    ends exactly when the no-change streak reaches 5: [n] is the first
    number of cycles after which the last 5 counts were each equal to the
    count read before it (0 before the first read).  A cycle in which the
    count differs, be it smaller, resets the streak. *)
Theorem scrollLoop_terminates_at_streak_5 w obs :
  (∀ i, itemCount w i = Return (obs i)) →
  (∀ i, scrollToBottom w i = Return ()) →
  (∀ i, waitForGrowth w i ≠ Diverge) →
  (∃ N, ∀ i, N ≤ i → obs (S i) ≤ obs i) →
  ∃ n,
    (∀ fuel tr, n ≤ fuel →
       scrollLoop fuel w scrollStart tr = (tr, Return (stateAfter obs n)))
    ∧ (∀ fuel tr, fuel < n →
         scrollLoop fuel w scrollStart tr = (tr, Diverge))
    ∧ cycles (stateAfter obs n) = n
    ∧ noChangeCount (stateAfter obs n) = 5
    ∧ (∀ k, k < n → noChangeCount (stateAfter obs k) < 5)
    ∧ 5 ≤ n
    ∧ (∀ j, n - 5 ≤ j < n → obs j = previousCount obs j)
    ∧ unchangedFor5 obs n
    ∧ (∀ k, k < n → ¬ unchangedFor5 obs k).
Proof.
  intros Hcounts Hscrolls Hwaits [N Hstop].
  destruct (streak_reached obs (obs N) N (le_n _) Hstop) as [k Hk].
  destruct (least_witness (λ k, 5 ≤ noChangeCount (stateAfter obs k)) k Hk)
    as (n & Hn & Hfirst).
  assert (Hbelow : ∀ j, j < n → noChangeCount (stateAfter obs j) < 5).
  { intros j Hj. apply Hfirst in Hj. lia. }
  assert (Hfive : noChangeCount (stateAfter obs n) = 5).
  { destruct n as [|n]; [simpl in Hn; lia|].
    pose proof (streak_step obs n). specialize (Hbelow n). lia. }
  exists n. split; [|split; [|split; [|split; [|split; [|split; [|split]]]]]].
  - intros fuel tr Hfuel.
    apply (scrollLoop_runs w obs Hcounts Hscrolls Hwaits n 0); auto.
  - intros fuel tr Hfuel.
    apply (scrollLoop_fuel_too_small w obs Hcounts Hscrolls Hwaits 0).
    intros j Hj. apply Hbelow. simpl. lia.
  - apply stateAfter_cycles.
  - exact Hfive.
  - exact Hbelow.
  - apply (streak_spec obs n 5). lia.
  - apply (streak_spec obs n 5). lia.
  - split; [apply (streak_spec obs n 5); lia|].
    intros i Hi Hstable. apply (streak_spec obs i 5) in Hstable.
    specialize (Hbelow i Hi). lia.
Qed.

Lemma scrollLoop_terminates_at_streak_5_witness :
  ∃ n, scrollLoop n Scenario.calmWorld scrollStart [] =
         ([], Return (stateAfter Scenario.counts3 n))
     ∧ noChangeCount (stateAfter Scenario.counts3 n) = 5
     ∧ unchangedFor5 Scenario.counts3 n
     ∧ ¬ unchangedFor5 Scenario.counts3 (n - 1).
Proof.
  destruct (scrollLoop_terminates_at_streak_5 Scenario.calmWorld
              Scenario.counts3)
    as (n & Hruns & _ & _ & Hfive & _ & Hn & _ & Hstable & Hfirst).
  - reflexivity.
  - reflexivity.
  - discriminate.
  - exists 3. intros i Hi. unfold Scenario.counts3. lia.
  - exists n. split; [apply Hruns; lia|]. split; [exact Hfive|].
    split; [exact Hstable | apply Hfirst; lia].
Defined.

(* ================================================================== *)
(** * Faults and the release of the browser *)
(* ================================================================== *)


Lemma quiet_await {A} (o : outcome A) : quiet (Eff.await o).
Proof. by intros tr. Qed.

Lemma quiet_ret {A} (a : A) : quiet (mret a : M A).
Proof. by intros tr. Qed.

Lemma quiet_bind {A B} (m : M A) (k : A → M B) :
  quiet m → (∀ a, quiet (k a)) → quiet (m ≫= k).
Proof.
  intros Hm Hk tr. unfold mbind, M_bind. specialize (Hm tr).
  destruct (m tr) as [tr1 [a| |]]; simpl in *; subst; [apply Hk | done..].
Qed.

Lemma quiet_mapM {A B} (f : A → M B) (xs : list A) :
  (∀ x, quiet (f x)) → quiet (mapM f xs).
Proof.
  intros Hf. induction xs as [|x xs IH]; [apply quiet_ret|].
  simpl. apply quiet_bind; [apply Hf|]. intros y.
  apply quiet_bind; [apply IH|]. intros ys. apply quiet_ret.
Qed.

Lemma quiet_scrollLoop fuel w st : quiet (scrollLoop fuel w st).
Proof.
  revert st. induction fuel as [|fuel IH]; intros st; simpl;
    (destruct (noChangeCount st <? 5); [|apply quiet_ret]).
  - apply quiet_await.
  - apply quiet_bind; [apply quiet_await|]. intros n.
    apply quiet_bind; [apply quiet_await|]. intros _.
    apply quiet_bind; [apply quiet_await|]. intros _.
    case_match; [apply quiet_ret | apply IH].
Qed.

Lemma quiet_extractItem div : quiet (extractItem div).
Proof.
  unfold extractItem. repeat (apply quiet_bind; [apply quiet_await|]; intros ?).
  apply quiet_ret.
Qed.

Lemma quiet_extractMovies w : quiet (extractMovies w).
Proof.
  unfold extractMovies. apply quiet_bind; [apply quiet_await|]. intros divs.
  apply quiet_bind; [apply quiet_mapM, quiet_extractItem|]. intros pushed.
  apply quiet_ret.
Qed.

(** Under a quiet computation the continuation starts from the same
    trace. *)
Lemma quiet_bind_cases {A B} (m : M A) (k : A → M B) tr :
  quiet m →
  (∃ a, m tr = (tr, Return a) ∧ (m ≫= k) tr = k a tr)
  ∨ (∃ e, (m ≫= k) tr = (tr, Throw e))
  ∨ (m ≫= k) tr = (tr, Diverge).
Proof.
  intros Hm. specialize (Hm tr). unfold mbind, M_bind.
  destruct (m tr) as [tr1 [a| |]]; simpl in Hm; subst; eauto.
Qed.

(** The events of the storage stage: nothing, the clear alone, or the clear
    and the write; the write only when the stage returns. *)
Lemma updateSheet_events w processedMovies tr tr' r :
  updateSheet w processedMovies tr = (tr', r) →
  match r with
  | Return _ => ∃ rows, tr' = tr ++ [SheetCleared; SheetWritten rows]
  | _ => tr' = tr ∨ tr' = tr ++ [SheetCleared]
  end.
Proof.
  unfold updateSheet, mbind, M_bind, Eff.await, Eff.perform.
  destruct (valuesGet w) as [values| |]; [|intros [= <- <-]; by left..].
  destruct (valuesClear w) as [[]| |]; [|intros [= <- <-]; by left..].
  destruct (valuesUpdate w _) as [[]| |]; intros [= <- <-].
  - eexists. by rewrite <- app_assoc.
  - by right.
  - by right.
Qed.

(** The body of the [try] leaves no event before its storage stage. *)
Lemma pipeline_events fuel w tr tr' r :
  pipeline fuel w tr = (tr', r) →
  match r with
  | Return _ => ∃ rows, tr' = tr ++ [SheetCleared; SheetWritten rows]
  | _ => tr' = tr ∨ tr' = tr ++ [SheetCleared]
  end.
Proof.
  unfold pipeline.
  repeat lazymatch goal with
  | |- (?m ≫= ?k) tr = _ → _ =>
      let Hq := fresh in
      assert (Hq : quiet m)
        by first [ apply quiet_await | apply quiet_scrollLoop
                 | apply quiet_extractMovies ];
      destruct (quiet_bind_cases m k tr Hq)
        as [(? & _ & ->) | [[? ->] | ->]];
        [ clear Hq | intros [= <- <-]; by left ..]
  end.
  apply updateSheet_events.
Qed.







(* ================================================================== *)
(** * Sanitizing a sanitized title *)
(* ================================================================== *)

Section NormalForm.

(** *** What each step establishes *)

Lemma replaced_kept x :
  allChars kept (Js.replaceBrackets (Js.replaceDots x)) = true.
Proof.
  unfold Js.replaceBrackets, Js.replaceDots.
  induction x as [|c x IH]; [done|]. simpl. rewrite IH, andb_true_r.
  destruct (Ascii.eqb_spec c ".") as [->|Hc]; [done|].
  destruct (Js.isBracket c) eqn:Hb; [done|].
  unfold kept. rewrite Hb. by apply Ascii.eqb_neq in Hc as ->.
Qed.

Lemma collapse_spaced b s : singleSpaced b (Js.collapseFrom b s) = true.
Proof.
  revert b. induction s as [|c s IH]; intros b; [done|]. simpl.
  destruct (Js.isSpace c) eqn:Hc.
  - destruct b; [apply IH|]. simpl. apply IH.
  - simpl. rewrite Hc. apply IH.
Qed.

Lemma collapse_kept b s :
  allChars kept s = true → allChars kept (Js.collapseFrom b s) = true.
Proof.
  revert b. induction s as [|c s IH]; intros b; [done|]. simpl.
  intros [Hc Hs]%andb_true_iff.
  destruct (Js.isSpace c); [destruct b|].
  - by apply IH.
  - change (allChars kept (Js.collapseFrom true s) = true). by apply IH.
  - simpl. rewrite Hc. by apply IH.
Qed.

(** *** Prefixes and suffixes *)

Lemma trimStart_suffix s : ∃ pre, s = (pre ++ Js.trimStart s)%string.
Proof.
  induction s as [|c s [pre IH]]; [by exists ""|]. simpl.
  destruct (Js.isSpace c); [|by exists ""].
  exists (String c pre). by rewrite append_cons, <- IH.
Qed.

Lemma trimEnd_prefix s : ∃ post, s = (Js.trimEnd s ++ post)%string.
Proof.
  induction s as [|c s [post IH]]; [by exists ""|]. simpl.
  destruct (Js.trimEnd s) as [|d r] eqn:Hr.
  - destruct (Js.isSpace c).
    + by exists (String c s).
    + exists post. by rewrite append_cons, <- IH.
  - exists post. by rewrite append_cons, <- IH.
Qed.

Lemma allChars_append p a b :
  allChars p (a ++ b) = allChars p a && allChars p b.
Proof.
  induction a as [|c a IH]; [done|].
  rewrite append_cons. simpl. by rewrite IH, andb_assoc.
Qed.

Lemma singleSpaced_weaken s :
  singleSpaced true s = true → singleSpaced false s = true.
Proof.
  destruct s as [|c s]; [done|]. simpl.
  destruct (Js.isSpace c); [|done]. by rewrite andb_false_r.
Qed.

Lemma singleSpaced_append b a s :
  singleSpaced b (a ++ s) = true →
  singleSpaced b a = true ∧ singleSpaced false s = true.
Proof.
  revert b. induction a as [|c a IH]; intros b.
  - rewrite append_nil_l. intros H. split; [done|].
    destruct b; [by apply singleSpaced_weaken | done].
  - rewrite append_cons. simpl. destruct (Js.isSpace c).
    + intros [[-> ->]%andb_true_iff [? ?]%IH]%andb_true_iff. by split.
    + apply IH.
Qed.

Lemma digits4At_append a b :
  Js.digits4At a = true → Js.digits4At (a ++ b) = true.
Proof. by destruct a as [|? [|? [|? [|? ?]]]]. Qed.

Lemma noDigits4_append a b :
  noDigits4 (a ++ b) = true → noDigits4 a = true ∧ noDigits4 b = true.
Proof.
  induction a as [|c a IH].
  - rewrite append_nil_l. by destruct b.
  - rewrite append_cons.
    change (noDigits4 (String c (a ++ b)))
      with (negb (Js.digits4At (String c a ++ b)) && noDigits4 (a ++ b)).
    change (noDigits4 (String c a))
      with (negb (Js.digits4At (String c a)) && noDigits4 a).
    intros [Hd [Ha Hb]%IH]%andb_true_iff. split; [|done].
    rewrite Ha, andb_true_r. apply negb_true_iff in Hd.
    apply negb_true_iff. destruct (Js.digits4At (String c a)) eqn:E; [|done].
    by rewrite (digits4At_append _ b E) in Hd.
Qed.

(** The first piece of the split is a prefix of the input and holds no
    run of four digits. *)
Lemma split_first_piece s :
  ∃ piece pieces rest,
    Js.splitDigits4 s = piece :: pieces
    ∧ s = (piece ++ rest)%string
    ∧ noDigits4 piece = true.
Proof.
  unfold Js.splitDigits4. induction s as [|c s (p & ps & rest & IH & Hs & Hp)].
  - by exists "", [], "".
  - change (Js.splitFrom 0 (String c s)) with
      (if Js.digits4At (String c s) then "" :: Js.splitFrom 3 s
       else match Js.splitFrom 0 s with
            | piece :: pieces => String c piece :: pieces
            | [] => [String c ""]
            end).
    destruct (Js.digits4At (String c s)) eqn:Hd.
    + by exists "", (Js.splitFrom 3 s), (String c s).
    + rewrite IH. exists (String c p), ps, rest.
      split; [done|]. split; [by rewrite append_cons, <- Hs|].
      change (noDigits4 (String c p))
        with (negb (Js.digits4At (String c p)) && noDigits4 p).
      rewrite Hp, andb_true_r. apply negb_true_iff.
      destruct (Js.digits4At (String c p)) eqn:E; [|done].
      apply (digits4At_append _ rest) in E.
      rewrite append_cons, <- Hs in E. congruence.
Qed.

(** *** [trim] reaches a fixed point *)

Lemma trimEnd_idem s : Js.trimEnd (Js.trimEnd s) = Js.trimEnd s.
Proof.
  induction s as [|c s IH]; [done|]. simpl.
  destruct (Js.trimEnd s) as [|d r] eqn:Hr.
  - destruct (Js.isSpace c) eqn:Hc; [done|]. simpl. by rewrite Hc.
  - change (Js.trimEnd (String c (String d r))) with
      (match Js.trimEnd (String d r) with
       | EmptyString => if Js.isSpace c then "" else String c ""
       | r' => String c r'
       end).
    by rewrite IH.
Qed.

Lemma trimStart_trim s : Js.trimStart (Js.trim s) = Js.trim s.
Proof.
  unfold Js.trim. induction s as [|c s IH]; [done|]. simpl.
  destruct (Js.isSpace c) eqn:Hc; [exact IH|]. simpl.
  destruct (Js.trimEnd s); simpl; rewrite ?Hc; simpl; by rewrite ?Hc.
Qed.

Lemma trim_idem s : Js.trim (Js.trim s) = Js.trim s.
Proof.
  unfold Js.trim at 1. rewrite trimStart_trim.
  unfold Js.trim. apply trimEnd_idem.
Qed.

Lemma trim_infix s : ∃ pre post, s = (pre ++ Js.trim s ++ post)%string.
Proof.
  destruct (trimStart_suffix s) as [pre Hpre].
  destruct (trimEnd_prefix (Js.trimStart s)) as [post Hpost].
  exists pre, post. unfold Js.trim. by rewrite <- Hpost.
Qed.

End NormalForm.

Section FixedPoint.

(** *** A string in normal form is left alone by every step *)

Lemma kept_replaceExtension s :
  allChars kept s = true → Js.replaceExtension s = s.
Proof.
  induction s as [|c s IH]; [done|]. simpl.
  intros [[Hc _]%andb_true_iff Hs]%andb_true_iff.
  apply negb_true_iff in Hc. rewrite Hc. simpl. by rewrite IH.
Qed.

Lemma kept_replaceDots s :
  allChars kept s = true → Js.replaceDots s = s.
Proof.
  unfold Js.replaceDots. induction s as [|c s IH]; [done|]. simpl.
  intros [[Hc _]%andb_true_iff Hs]%andb_true_iff.
  apply negb_true_iff in Hc. by rewrite Hc, IH.
Qed.

Lemma kept_replaceBrackets s :
  allChars kept s = true → Js.replaceBrackets s = s.
Proof.
  unfold Js.replaceBrackets. induction s as [|c s IH]; [done|]. simpl.
  intros [[_ Hc]%andb_true_iff Hs]%andb_true_iff.
  apply negb_true_iff in Hc. by rewrite Hc, IH.
Qed.

Lemma spaced_collapse b s :
  singleSpaced b s = true → Js.collapseFrom b s = s.
Proof.
  revert b. induction s as [|c s IH]; intros b; [done|]. simpl.
  destruct (Js.isSpace c).
  - intros [[Hc Hb]%andb_true_iff Hs]%andb_true_iff.
    apply negb_true_iff in Hb as ->. apply Ascii.eqb_eq in Hc as ->.
    by rewrite IH.
  - intros Hs. by rewrite IH.
Qed.

Lemma noDigits4_split s : noDigits4 s = true → Js.splitDigits4 s = [s].
Proof.
  unfold Js.splitDigits4. induction s as [|c s IH]; [done|].
  change (noDigits4 (String c s))
    with (negb (Js.digits4At (String c s)) && noDigits4 s).
  change (Js.splitFrom 0 (String c s)) with
    (if Js.digits4At (String c s) then "" :: Js.splitFrom 3 s
     else match Js.splitFrom 0 s with
          | piece :: pieces => String c piece :: pieces
          | [] => [String c ""]
          end).
  intros [Hd Hs]%andb_true_iff. apply negb_true_iff in Hd.
  by rewrite Hd, IH.
Qed.

(** The title field of every result is in normal form. *)
Lemma titleField_tidy title t :
  titleField (sanitizedTitle title) = Return t → tidy t.
Proof.
  unfold titleField.
  destruct (split_first_piece (sanitizedTitle title))
    as (piece & pieces & rest & -> & Hcut & Hdigits).
  simpl. intros [= <-].
  destruct (trim_infix piece) as (pre & post & Htrim).
  assert (Hkept : allChars kept piece = true).
  { pose proof (replaced_kept (Js.replaceExtension title)) as H.
    destruct (trim_infix
      (Js.replaceBrackets (Js.replaceDots (Js.replaceExtension title))))
      as (pre' & post' & Hinfix).
    rewrite Hinfix, !allChars_append in H.
    apply andb_true_iff in H as [_ [H _]%andb_true_iff].
    apply (collapse_kept false) in H. fold (sanitizedTitle title) in H.
    fold Js.collapseSpaces in H. unfold sanitizedTitle in Hcut.
    rewrite Hcut, allChars_append in H.
    by apply andb_true_iff in H as [H _]. }
  assert (Hspaced : singleSpaced false piece = true).
  { pose proof (collapse_spaced false (Js.trim (Js.replaceBrackets
      (Js.replaceDots (Js.replaceExtension title))))) as H.
    fold Js.collapseSpaces in H. fold (sanitizedTitle title) in H.
    rewrite Hcut in H. by apply singleSpaced_append in H as [H _]. }
  split.
  - rewrite Htrim, !allChars_append in Hkept.
    by apply andb_true_iff in Hkept as [_ [H _]%andb_true_iff].
  - rewrite Htrim in Hspaced.
    apply singleSpaced_append in Hspaced as [_ H].
    by apply singleSpaced_append in H as [H _].
  - rewrite Htrim in Hdigits.
    apply noDigits4_append in Hdigits as [_ H].
    by apply noDigits4_append in H as [H _].
  - apply trim_idem.
Qed.

Lemma tidy_fixpoint t : tidy t → titleField (sanitizedTitle t) = Return t.
Proof.
  intros [Hkept Hspaced Hdigits Htrim]. unfold sanitizedTitle.
  rewrite kept_replaceExtension, kept_replaceDots, kept_replaceBrackets,
    Htrim by done.
  unfold Js.collapseSpaces. rewrite spaced_collapse by done.
  unfold titleField. rewrite noDigits4_split by done. simpl.
  by rewrite Htrim.
Qed.

End FixedPoint.

(** C8, as the specification gives it: the sanitized title of "2011.mkv"
    is empty, holds no year and no quality, and sanitizing it again yields
    [null], hence no title at all. *)
Lemma empty_title_resanitizes_to_null :
  ∃ r, sanitizeMovieTitle (Str "2011.mkv") = Return (Some r)
     ∧ sanitized_title r = ""
     ∧ yearMatch (sanitized_title r) = None
     ∧ qualityMatch (sanitized_title r) = None
     ∧ sanitizeMovieTitle (Str (sanitized_title r)) = Return None.
Proof. eexists. repeat split; vm_compute; reflexivity. Qed.

(** C8, amended: for every input whose sanitized title is not empty,
    sanitizing that sanitized title again yields the very same sanitized
    title, so it is not shorter; an empty sanitized title is sanitized to
    [null]. *)
Theorem resanitize_keeps_title title r :
  sanitizeMovieTitle (Str title) = Return (Some r) →
  (sanitized_title r = ""
   ∧ sanitizeMovieTitle (Str (sanitized_title r)) = Return None)
  ∨ (sanitized_title r ≠ ""
     ∧ ∃ r', sanitizeMovieTitle (Str (sanitized_title r)) = Return (Some r')
           ∧ sanitized_title r' = sanitized_title r
           ∧ String.length (sanitized_title r)
             ≤ String.length (sanitized_title r')).
Proof.
  intros Hr.
  destruct (decide (sanitized_title r = "")) as [Hempty|Hne].
  { left. split; [done|]. by rewrite Hempty. }
  right. split; [done|].
  assert (Htidy : tidy (sanitized_title r)).
  { destruct (decide (title = "")) as [->|Htitle]; [done|].
    destruct (sanitize_nonempty title Htitle) as (t & Ht & Hs).
    rewrite Hs in Hr. injection Hr as <-. by eapply titleField_tidy. }
  destruct (sanitize_nonempty _ Hne) as (t' & Ht' & ->).
  rewrite (tidy_fixpoint _ Htidy) in Ht'. injection Ht' as <-.
  eexists. split; [reflexivity|]. simpl. split; [done | lia].
Qed.

Lemma resanitize_keeps_title_witness :
  ∃ r', sanitizeMovieTitle (Str "The Thing") = Return (Some r')
      ∧ sanitized_title r' = "The Thing".
Proof.
  destruct (resanitize_keeps_title "The.Thing.2011.1080p.BluRay.REMUX.mkv"
    {| sanitized_title := "The Thing"; year := "2011"; quality := "1080p";
       keywords := "REMUX,BluRay" |})
    as [[Hempty _] | (_ & r' & Hr' & Htitle & _)].
  - vm_compute. reflexivity.
  - discriminate Hempty.
  - exists r'. split; [exact Hr' | exact Htitle].
Defined.

(* ================================================================== *)
(** * Leftmost matches: year and quality *)
(* ================================================================== *)

Lemma append_nil_r (a : string) : (a ++ "")%string = a.
Proof. induction a as [|c a IH]; [done|]. by rewrite append_cons, IH. Qed.

Lemma length_append (a b : string) :
  String.length (a ++ b) = String.length a + String.length b.
Proof. induction a as [|c a IH]; [done|]. rewrite append_cons. simpl. lia. Qed.

Lemma last_cons c s : ∃ x, Js.last (String c s) = Some x.
Proof.
  revert c. induction s as [|d s IH]; intros c; [by exists c|].
  destruct (IH d) as [x Hx]. exists x. by rewrite <- Hx.
Qed.

Lemma before_cons prev c pre :
  before prev (String c pre) = before (Some c) pre.
Proof.
  unfold before. destruct pre as [|d pre]; [done|].
  destruct (last_cons d pre) as [x Hx].
  change (Js.last (String c (String d pre))) with (Js.last (String d pre)).
  by rewrite Hx.
Qed.

Section Leftmost.

Variable at_ : option ascii → string → option string.

(** A match of [matchFrom] is a match at some position, and no position to
    its left has one. *)
Lemma matchFrom_Some prev s m :
  Js.matchFrom at_ prev s = Some m →
  ∃ pre rest,
    s = (pre ++ rest)%string
    ∧ at_ (before prev pre) rest = Some m
    ∧ ∀ pre' rest', s = (pre' ++ rest')%string →
        String.length pre' < String.length pre →
        at_ (before prev pre') rest' = None.
Proof.
  revert prev. induction s as [|c s IH]; intros prev; simpl.
  - destruct (at_ prev "") eqn:E; [|done]. intros [= ->].
    exists "", "". repeat split; [done|]. simpl. lia.
  - destruct (at_ prev (String c s)) eqn:E.
    + intros [= ->]. exists "", (String c s). repeat split; [done|].
      simpl. lia.
    + intros (pre & rest & -> & Hat & Hleft)%IH.
      exists (String c pre), rest. rewrite before_cons.
      repeat split; [done|]. intros pre' rest' Hs Hlen.
      destruct pre' as [|c' pre']; [by rewrite append_nil_l in Hs; subst|].
      rewrite !append_cons in Hs. injection Hs as <- Hs.
      rewrite before_cons. apply Hleft; [done|]. simpl in Hlen. lia.
Qed.

Lemma matchFrom_None prev s :
  Js.matchFrom at_ prev s = None →
  ∀ pre rest, s = (pre ++ rest)%string → at_ (before prev pre) rest = None.
Proof.
  revert prev. induction s as [|c s IH]; intros prev; simpl.
  - destruct (at_ prev "") eqn:E; [done|]. intros _ pre rest Hs.
    destruct pre; [|done]. by rewrite append_nil_l in Hs; subst.
  - destruct (at_ prev (String c s)) eqn:E; [done|]. intros Hs pre rest Heq.
    destruct pre as [|c' pre]; [by rewrite append_nil_l in Heq; subst|].
    rewrite append_cons in Heq. injection Heq as <- Heq.
    rewrite before_cons. by eapply IH.
Qed.

End Leftmost.

Lemma isDigit_isWord c : Js.isDigit c = true → Js.isWord c = true.
Proof. unfold Js.isWord. intros ->. by rewrite orb_true_r. Qed.

Lemma first_append_cons c m post : Js.first (String c m ++ post) = Some c.
Proof. done. Qed.

(** [yearAt] is a year between two word boundaries. *)
Lemma yearAt_spec prev rest m :
  Js.yearAt prev rest = Some m ↔
  isYear m = true
  ∧ ∃ post, rest = (m ++ post)%string
          ∧ Js.isWordOpt prev = false
          ∧ Js.isWordOpt (Js.first post) = false.
Proof.
  assert (Hshape : ∀ a b (c d : ascii),
    (String.eqb (String a (String b "")) "20"
     || String.eqb (String a (String b "")) "19") = true →
    Js.isDigit d = true → Js.isWord a = true ∧ Js.isWord d = true).
  { intros a b c d Hab Hd. split; [|by apply isDigit_isWord].
    apply orb_true_iff in Hab as [H|H]; apply String.eqb_eq in H;
      by injection H as -> ->. }
  split.
  - unfold Js.yearAt. destruct rest as [|a [|b [|c [|d rest]]]]; try done.
    destruct (_ && _) eqn:E; [|done]. intros [= <-].
    apply andb_true_iff in E as [[[[Hb Hab]%andb_true_iff Hc]%andb_true_iff
      Hd]%andb_true_iff Ha].
    destruct (Hshape a b c d Hab Hd) as [Hwa Hwd].
    unfold Js.wordBoundary in *. cbn [Js.isWordOpt] in Hb, Ha.
    rewrite Hwa in Hb. rewrite Hwd in Ha.
    split; [unfold isYear; by rewrite Hab, Hc, Hd|].
    exists rest. split; [done|].
    split; [by destruct (Js.isWordOpt prev) |
            by destruct (Js.isWordOpt (Js.first rest))].
  - intros [Hm (post & -> & Hprev & Hpost)].
    destruct m as [|a [|b [|c [|d [|? ?]]]]]; try done.
    unfold isYear in Hm.
    apply andb_true_iff in Hm as [[Hab Hc]%andb_true_iff Hd].
    destruct (Hshape a b c d Hab Hd) as [Hwa Hwd].
    rewrite !append_cons, append_nil_l. unfold Js.yearAt, Js.wordBoundary.
    cbn [Js.isWordOpt]. by rewrite Hprev, Hwa, Hab, Hc, Hd, Hwd, Hpost.
Qed.

Lemma before_None pre : before None pre = Js.last pre.
Proof. unfold before. by destruct (Js.last pre). Qed.

Lemma sanitize_inv s r :
  sanitizeMovieTitle (Str s) = Return (Some r) →
  s ≠ ""
  ∧ titleField (sanitizedTitle s) = Return (sanitized_title r)
  ∧ year r = default "" (yearMatch s)
  ∧ quality r = default "" (qualityMatch s)
  ∧ keywords r = Js.join "," (matchedKeywords s).
Proof.
  intros Hr. destruct (decide (s = "")) as [->|Hs]; [done|].
  destruct (sanitize_nonempty s Hs) as (t & Ht & Heq).
  rewrite Heq in Hr. injection Hr as <-. by rewrite Ht.
Qed.

(** What a leftmost match of a delimited pattern gives: [shape] says which
    texts the pattern matches. *)
Lemma leftmost_delimited at_ (shape : string → Prop) s :
  (∀ prev rest m,
     at_ prev rest = Some m ↔
     shape m ∧ ∃ post, rest = (m ++ post)%string
                     ∧ Js.isWordOpt prev = false
                     ∧ Js.isWordOpt (Js.first post) = false) →
  match Js.matchFrom at_ None s with
  | None => ∀ pre m post, shape m → ¬ delimited s pre m post
  | Some y =>
      shape y
      ∧ ∃ pre post,
          delimited s pre y post
          ∧ ∀ pre' m' post', shape m' → delimited s pre' m' post' →
              String.length pre ≤ String.length pre'
  end.
Proof.
  intros Hat. destruct (Js.matchFrom at_ None s) as [y|] eqn:E.
  - apply matchFrom_Some in E as (pre & rest & Hs & Hy & Hleft).
    rewrite before_None in Hy.
    apply Hat in Hy as (Hshape & post & -> & Hpre & Hpost).
    split; [done|]. exists pre, post. split; [done|].
    intros pre' m' post' Hm' (Hs' & Hpre' & Hpost').
    destruct (le_lt_dec (String.length pre) (String.length pre'))
      as [|Hlt]; [done|].
    specialize (Hleft pre' (m' ++ post')%string Hs' Hlt).
    rewrite before_None in Hleft.
    assert (at_ (Js.last pre') (m' ++ post')%string = Some m') as Hsome
      by (apply Hat; eauto).
    congruence.
  - intros pre m post Hm (Hs & Hpre & Hpost).
    pose proof (matchFrom_None at_ None s E pre _ Hs) as Hnone.
    rewrite before_None in Hnone.
    assert (at_ (Js.last pre) (m ++ post)%string = Some m) as Hsome
      by (apply Hat; eauto).
    congruence.
Qed.

Lemma isYear_digits4 y post :
  isYear y = true → Js.digits4At (y ++ post) = true.
Proof.
  destruct y as [|a [|b [|c [|d [|? ?]]]]]; try done. unfold isYear.
  intros [[Hab Hc]%andb_true_iff Hd]%andb_true_iff.
  rewrite !append_cons. unfold Js.digits4At. rewrite Hc, Hd, !andb_true_r.
  apply orb_true_iff in Hab as [H|H]; apply String.eqb_eq in H;
    by injection H as -> ->.
Qed.

Lemma noDigits4_head s : noDigits4 s = true → Js.digits4At s = false.
Proof.
  destruct s; [done|].
  change (noDigits4 (String a s))
    with (negb (Js.digits4At (String a s)) && noDigits4 s).
  by intros [?%negb_true_iff _]%andb_true_iff.
Qed.

(** X1: the [year] of a result is the leftmost text [19dd] or [20dd] of the
    title that has no word character on either side, and the empty string
    when the title has no such text; the sanitized title never contains
    it. *)
Theorem year_is_leftmost_delimited_year s r :
  sanitizeMovieTitle (Str s) = Return (Some r) →
  (year r = ""
   ∧ ∀ pre m post, isYear m = true → ¬ delimited s pre m post)
  ∨ (isYear (year r) = true
     ∧ Js.includes (sanitized_title r) (year r) = false
     ∧ ∃ pre post,
         delimited s pre (year r) post
         ∧ ∀ pre' m' post', isYear m' = true → delimited s pre' m' post' →
             String.length pre ≤ String.length pre').
Proof.
  intros (_ & Htitle & Hyear & _)%sanitize_inv.
  pose proof (leftmost_delimited Js.yearAt (λ m, isYear m = true) s
                yearAt_spec) as H.
  unfold yearMatch in Hyear. destruct (Js.matchFrom Js.yearAt None s) as [y|].
  - right. simpl in Hyear. rewrite Hyear.
    destruct H as [Hy Hocc]. split; [done|]. split; [|done].
    apply titleField_tidy in Htitle as [_ _ Hdigits _].
    apply not_true_is_false. intros (a & b & Hab)%includes_spec.
    rewrite Hab in Hdigits.
    apply noDigits4_append in Hdigits as [_ Hdigits%noDigits4_head].
    by rewrite isYear_digits4 in Hdigits.
  - left. by split.
Qed.

Lemma year_is_leftmost_delimited_year_witness :
  Js.includes "Blade Runner" "2049" = false
  ∧ ∃ pre post, delimited "Blade.Runner.2049.2017.mkv" pre "2049" post.
Proof.
  destruct (year_is_leftmost_delimited_year "Blade.Runner.2049.2017.mkv"
    {| sanitized_title := "Blade Runner"; year := "2049"; quality := "";
       keywords := "" |})
    as [[Hempty _] | (_ & Htitle & pre & post & Hocc & _)].
  - vm_compute. reflexivity.
  - discriminate Hempty.
  - split; [exact Htitle|]. exists pre, post. exact Hocc.
Defined.

(** [qualityAt] is one of the three tags between two word boundaries. *)
Lemma qualityAt_spec prev rest m :
  Js.qualityAt prev rest = Some m ↔
  m ∈ qualityTags
  ∧ ∃ post, rest = (m ++ post)%string
          ∧ Js.isWordOpt prev = false
          ∧ Js.isWordOpt (Js.first post) = false.
Proof.
  unfold Js.qualityAt, Js.literalsAt, qualityTags. split.
  - destruct (Js.wordBoundary prev (Js.first rest)) eqn:Hb; [|done].
    intros [Hin Hm]%find_some. apply list_elem_of_In in Hin.
    split; [done|].
    destruct (Js.stripPrefix m rest) as [post|] eqn:Hpost; [|done].
    apply stripPrefix_spec in Hpost as ->. exists post. split; [done|].
    unfold Js.wordBoundary in *.
    repeat (apply elem_of_cons in Hin as [->|Hin]);
      [..|by apply elem_of_nil in Hin];
      rewrite !append_cons in Hb; cbn in Hb, Hm;
      by destruct (Js.isWordOpt prev), (Js.isWordOpt (Js.first post)).
  - intros (Hin & post & -> & Hprev & Hpost). unfold Js.wordBoundary.
    repeat (apply elem_of_cons in Hin as [->|Hin]);
      [..|by apply elem_of_nil in Hin];
      rewrite !append_cons, append_nil_l; cbn; by rewrite Hprev, Hpost.
Qed.

(** X2: the [quality] of a result is the tag of the leftmost occurrence of
    1080p, 720p or 2160p in the title that has no word character on either
    side, and the empty string when there is no such occurrence; in
    particular it is empty when the title contains none of the three
    tags. *)
Theorem quality_is_leftmost_delimited_tag s r :
  sanitizeMovieTitle (Str s) = Return (Some r) →
  ((quality r = ""
    ∧ ∀ pre m post, m ∈ qualityTags → ¬ delimited s pre m post)
   ∨ (quality r ∈ qualityTags
      ∧ ∃ pre post,
          delimited s pre (quality r) post
          ∧ ∀ pre' m' post', m' ∈ qualityTags → delimited s pre' m' post' →
              String.length pre ≤ String.length pre'))
  ∧ ((∀ tag, tag ∈ qualityTags → Js.includes s tag = false) →
     quality r = "").
Proof.
  intros (_ & _ & _ & Hquality & _)%sanitize_inv.
  pose proof (leftmost_delimited Js.qualityAt (λ m, m ∈ qualityTags) s
                qualityAt_spec) as H.
  unfold qualityMatch in Hquality.
  destruct (Js.matchFrom Js.qualityAt None s) as [q|]; simpl in Hquality;
    rewrite Hquality.
  - destruct H as [Hq (pre & post & Hocc & Hleft)]. split.
    + right. split; [done|]. by exists pre, post.
    + intros Hnone. specialize (Hnone q Hq).
      destruct Hocc as (Hs & _).
      assert (Js.includes s q = true) by (apply includes_spec; eauto).
      congruence.
  - split; [by left | done].
Qed.

Lemma quality_is_leftmost_delimited_tag_witness :
  ∃ pre post, delimited "Heat.1995.x1080p.720p.mkv" pre "720p" post.
Proof.
  destruct (quality_is_leftmost_delimited_tag "Heat.1995.x1080p.720p.mkv"
    {| sanitized_title := "Heat"; year := "1995"; quality := "720p";
       keywords := "" |})
    as [[[Hempty _] | (_ & pre & post & Hocc & _)] _].
  - vm_compute. reflexivity.
  - discriminate Hempty.
  - exists pre, post. exact Hocc.
Defined.

(* ================================================================== *)
(** * The file extension and the sanitized title *)
(* ================================================================== *)

Lemma replaceExtension_cons c s :
  Js.replaceExtension (String c s) =
  if Ascii.eqb c "." && isExtension s then ""
  else String c (Js.replaceExtension s).
Proof. reflexivity. Qed.

Lemma replaceExtension_prefix s :
  ∃ rest, s = (Js.replaceExtension s ++ rest)%string
        ∧ (rest = "" ∨ ∃ e, rest = String "." e ∧ isExtension e = true).
Proof.
  induction s as [|c s (rest & IH & Hrest)]; [exists ""; by split; [|left]|].
  rewrite replaceExtension_cons.
  destruct (Ascii.eqb_spec c ".") as [->|Hc]; simpl.
  - destruct (isExtension s) eqn:He.
    + exists (String "." s). split; [done|]. right. by exists s.
    + exists rest. by rewrite append_cons, <- IH.
  - exists rest. by rewrite append_cons, <- IH.
Qed.

Lemma upperChar_dot c : Js.upperChar c = "."%char → c = "."%char.
Proof.
  unfold Js.upperChar. destruct (Js.isLower c) eqn:Hl; [|done].
  destruct c as [[] [] [] [] [] [] [] []]; try discriminate Hl;
    vm_compute; discriminate.
Qed.

Lemma toUpperCase_no_dot e :
  allChars (λ c, negb (Ascii.eqb c ".")) (Js.toUpperCase e) = true →
  allChars (λ c, negb (Ascii.eqb c ".")) e = true.
Proof.
  induction e as [|c e IH]; [done|]. simpl.
  intros [Hc He]%andb_true_iff. rewrite IH by done. rewrite andb_true_r.
  apply negb_true_iff, Ascii.eqb_neq. intros ->.
  by vm_compute in Hc.
Qed.

(** An extension holds no dot. *)
Lemma isExtension_no_dot e :
  isExtension e = true → allChars (λ c, negb (Ascii.eqb c ".")) e = true.
Proof.
  unfold isExtension. intros (x & Hx & Heq)%existsb_exists.
  apply String.eqb_eq in Heq. apply toUpperCase_no_dot. rewrite Heq.
  apply list_elem_of_In in Hx. unfold Js.extensions in Hx.
  repeat (apply elem_of_cons in Hx as [->|Hx]); try reflexivity.
  by apply elem_of_nil in Hx.
Qed.

Lemma replaceExtension_strips p e :
  isExtension e = true → Js.replaceExtension (p ++ String "." e) = p.
Proof.
  intros He. induction p as [|c p IH].
  - rewrite append_nil_l, replaceExtension_cons. by rewrite He.
  - rewrite append_cons, replaceExtension_cons, IH.
    destruct (isExtension (p ++ String "." e)) eqn:Hno;
      [|by rewrite andb_false_r].
    apply isExtension_no_dot in Hno. rewrite allChars_append in Hno.
    apply andb_true_iff in Hno as [_ Hno]. done.
Qed.

(** X3: line 39 removes exactly one thing, the last dot and what follows it,
    when what follows it is one of the seven extensions in any letter case;
    every other string is left as it is. *)
Theorem replaceExtension_strips_one_extension s :
  (∃ p e, isExtension e = true
        ∧ s = (p ++ "." ++ e)%string
        ∧ Js.replaceExtension s = p)
  ∨ ((∀ p e, s = (p ++ "." ++ e)%string → isExtension e = false)
     ∧ Js.replaceExtension s = s).
Proof.
  destruct (replaceExtension_prefix s) as (rest & Hs & [->|(e & -> & He)]).
  - right. rewrite append_nil_r in Hs. split; [|done].
    intros p e Hp. apply not_true_is_false. intros He.
    pose proof (replaceExtension_strips p e He) as Hstrip.
    change (p ++ String "." e)%string with (p ++ "." ++ e)%string in Hstrip.
    rewrite <- Hp, <- Hs in Hstrip.
    apply (f_equal String.length) in Hp.
    rewrite Hstrip, length_append in Hp. simpl in Hp. lia.
  - left. by exists (Js.replaceExtension s), e.
Qed.

Lemma length_mapChars f s :
  String.length (Js.mapChars f s) = String.length s.
Proof. induction s as [|c s IH]; simpl; congruence. Qed.

Lemma length_collapseFrom b s :
  String.length (Js.collapseFrom b s) ≤ String.length s.
Proof.
  revert b. induction s as [|c s IH]; intros b; [done|]. simpl.
  destruct (Js.isSpace c); [destruct b|]; simpl;
    [specialize (IH true) | specialize (IH true) | specialize (IH false)];
    lia.
Qed.

Lemma length_trim s : String.length (Js.trim s) ≤ String.length s.
Proof.
  destruct (trim_infix s) as (pre & post & Hs).
  apply (f_equal String.length) in Hs. rewrite !length_append in Hs. lia.
Qed.

Lemma length_sanitizedTitle s :
  String.length (sanitizedTitle s) ≤ String.length s.
Proof.
  unfold sanitizedTitle, Js.collapseSpaces.
  etrans; [apply length_collapseFrom|]. etrans; [apply length_trim|].
  unfold Js.replaceBrackets, Js.replaceDots. rewrite !length_mapChars.
  destruct (replaceExtension_prefix s) as (rest & Hs & _).
  apply (f_equal String.length) in Hs. rewrite length_append in Hs. lia.
Qed.

(** X4: the sanitized title of every result is in normal form: it holds no
    dot and none of the characters [ ] ( ) - _ /, its white space is single
    spaces between other characters, it has no run of four digits, no
    leading and no trailing white space; and it is never longer than the
    raw title. *)
Theorem sanitized_title_normal_form s r :
  sanitizeMovieTitle (Str s) = Return (Some r) →
  allChars kept (sanitized_title r) = true
  ∧ singleSpaced false (sanitized_title r) = true
  ∧ noDigits4 (sanitized_title r) = true
  ∧ Js.trim (sanitized_title r) = sanitized_title r
  ∧ String.length (sanitized_title r) ≤ String.length s.
Proof.
  intros (_ & Htitle & _)%sanitize_inv.
  destruct (titleField_tidy _ _ Htitle) as [Hkept Hspaced Hdigits Htrim].
  repeat split; try done.
  unfold titleField in Htitle.
  destruct (split_first_piece (sanitizedTitle s))
    as (piece & pieces & rest & Hsplit & Hcut & _).
  rewrite Hsplit in Htitle. simpl in Htitle. injection Htitle as <-.
  etrans; [apply length_trim|].
  pose proof (length_sanitizedTitle s) as Hlen.
  rewrite Hcut, length_append in Hlen. lia.
Qed.

Lemma sanitized_title_normal_form_witness :
  noDigits4 "Blade Runner" = true ∧ String.length "Blade Runner" ≤ 26.
Proof.
  destruct (sanitized_title_normal_form "Blade.Runner.2049.2017.mkv"
    {| sanitized_title := "Blade Runner"; year := "2049"; quality := "";
       keywords := "" |}) as (_ & _ & Hdigits & _ & Hlen).
  - vm_compute. reflexivity.
  - split; [exact Hdigits | exact Hlen].
Defined.

(* ================================================================== *)
(** * [processMovies]: rows and faults *)
(* ================================================================== *)

Lemma processMovies_cons movie movies :
  processMovies (movie :: movies) =
  (row ← processMovie movie;
   rows ← processMovies movies;
   mret (row :: rows)).
Proof. reflexivity. Qed.

Lemma processMovie_throws movie :
  truthy (original_title movie) = false →
  processMovie movie = Throw (TypeError "Cannot read properties of null").
Proof.
  intros Hfalsy. unfold processMovie, sanitizeMovieTitle.
  by rewrite Hfalsy.
Qed.

Lemma sanitize_Some_truthy title r :
  sanitizeMovieTitle title = Return (Some r) → truthy title = true.
Proof. unfold sanitizeMovieTitle. by destruct (truthy title). Qed.

Lemma processMovie_inv movie row :
  processMovie movie = Return row →
  ∃ r, sanitizeMovieTitle (original_title movie) = Return (Some r)
     ∧ row = [ original_title movie; url movie; size movie;
               Str (sanitized_title r); Str (year r);
               Str (quality r); Str (keywords r) ].
Proof.
  unfold processMovie.
  destruct (sanitizeMovieTitle (original_title movie)) as [[r|]| |];
    simpl; [|done..].
  intros [= <-]. by exists r.
Qed.

(** X5: [processMovies] returns exactly when every original-title is a
    non-empty string, with one row per movie; as soon as one title is
    [undefined], [null] or empty it throws a [TypeError] and returns no
    row at all. *)
Theorem processMovies_returns_or_TypeError movies :
  (Forall (λ m, truthy (original_title m) = true) movies
   ∧ ∃ rows, processMovies movies = Return rows
           ∧ length rows = length movies)
  ∨ (Exists (λ m, truthy (original_title m) = false) movies
     ∧ ∃ msg, processMovies movies = Throw (TypeError msg)).
Proof.
  induction movies as [|m ms IH];
    [left; split; [constructor | exists []; split; reflexivity]|].
  rewrite processMovies_cons.
  destruct (truthy (original_title m)) eqn:Hm.
  - destruct (processMovie_returns m Hm) as (r & _ & ->). simpl.
    destruct IH as [(Hall & rows & -> & Hlen) | (Hex & msg & ->)].
    + left. split; [by constructor|]. eexists. split; [reflexivity|].
      simpl. by rewrite Hlen.
    + right. split; [by constructor|]. by exists msg.
  - right. split; [by constructor|].
    rewrite (processMovie_throws m Hm). by eexists.
Qed.

(** X6: the rows [processMovies] returns follow the movies in order; each has
    the seven cells of the header row: the three fields of the movie
    unchanged, then the four fields of the sanitizer for its title. *)
Theorem processMovies_rows_follow_movies movies rows :
  processMovies movies = Return rows →
  Forall2 (λ m row,
      ∃ r, sanitizeMovieTitle (original_title m) = Return (Some r)
         ∧ row = [ original_title m; url m; size m;
                   Str (sanitized_title r); Str (year r);
                   Str (quality r); Str (keywords r) ])
    movies rows
  ∧ sevenColumns rows
  ∧ Forall (λ row, truthy (cell row 0) = true) rows.
Proof.
  revert rows. induction movies as [|m ms IH]; intros rows.
  - intros [= <-]. by repeat split; constructor.
  - rewrite processMovies_cons.
    destruct (processMovie m) as [row| |] eqn:Hrow; [|done..].
    destruct (processMovies ms) as [rows'| |]; [|done..].
    intros [= <-]. destruct (IH rows' eq_refl) as (Hall & Hseven & Hkeys).
    pose proof (processMovie_inv m row Hrow) as (r & Hr & ->).
    repeat split; constructor; try done.
    + by exists r.
    + change (truthy (original_title m) = true).
      by eapply sanitize_Some_truthy.
Qed.

Lemma processMovies_rows_follow_movies_witness :
  sevenColumns
    [ [ Str "Heat.1995.1080p.mkv"; Str "https://heat"; Str "12 GB";
        Str "Heat"; Str "1995"; Str "1080p"; Str "" ] ].
Proof.
  apply (processMovies_rows_follow_movies
           [ {| original_title := Str "Heat.1995.1080p.mkv";
                url := Str "https://heat"; size := Str "12 GB" |} ]).
  vm_compute. reflexivity.
Defined.

(* ================================================================== *)
(** * Reconciliation: what is kept, what is dropped *)
(* ================================================================== *)

Lemma filter_all {A} (P : A → Prop) `{∀ x, Decision (P x)} (l : list A) :
  Forall P l → filter P l = l.
Proof.
  induction 1 as [|x l Hx _ IH]; [done|].
  by rewrite filter_cons_True, IH.
Qed.

Lemma filter_none {A} (P : A → Prop) `{∀ x, Decision (P x)} (l : list A) :
  Forall (λ x, ¬ P x) l → filter P l = [].
Proof.
  induction 1 as [|x l Hx _ IH]; [done|].
  by rewrite filter_cons_False, IH.
Qed.

Lemma filter_submseteq_mono {A} (P : A → Prop) `{∀ x, Decision (P x)}
    (l k : list A) :
  l ⊆+ k → filter P l ⊆+ filter P k.
Proof.
  induction 1 as [|x l k _ IH|x y l|x l k _ IH|l k1 k2 _ IH1 _ IH2].
  - done.
  - rewrite !filter_cons. destruct (decide (P x)); [by constructor | done].
  - rewrite !filter_cons. destruct (decide (P x)), (decide (P y));
      try done. apply submseteq_swap.
  - rewrite filter_cons. destruct (decide (P x)); [by constructor | done].
  - by etrans.
Qed.

Lemma new_old_Permutation values processedMovies :
  newMovies values processedMovies ++ oldMovies values processedMovies
  ≡ₚ processedMovies.
Proof.
  unfold newMovies, oldMovies.
  rewrite (comm (++)).
  apply (filter_app_complement
           (λ m, cell m 0 ∈ existingMovies values) processedMovies).
Qed.

Lemma orderedMovies_submseteq values processedMovies :
  orderedMovies values processedMovies ⊆+ processedMovies.
Proof.
  rewrite <- (new_old_Permutation values processedMovies) at 2.
  unfold orderedMovies. apply submseteq_skips_r, submseteq_take.
Qed.

(** X7: whatever the sheet holds, one sync writes at most 10 records whose
    key is not in the sheet, and never a record of its own making: the
    merged rows are rows of the crawl, none more often than the crawl has
    it, so there are at most as many as in the crawl. *)
Theorem orderedMovies_admits_at_most_10 values processedMovies :
  length (filter (λ m, originalTitle m ∉ priorKeys values)
            (orderedMovies values processedMovies)) ≤ 10
  ∧ orderedMovies values processedMovies ⊆+ processedMovies
  ∧ length (orderedMovies values processedMovies) ≤ length processedMovies.
Proof.
  pose proof (orderedMovies_submseteq values processedMovies) as Hsub.
  split; [|split; [done | by apply submseteq_length]].
  unfold orderedMovies. rewrite filter_app, length_app.
  rewrite (filter_none _ (oldMovies values processedMovies)).
  - simpl. rewrite Nat.add_0_r. etrans; [apply length_filter|].
    rewrite length_take. lia.
  - apply Forall_forall. intros m [_ Hm]%oldMovies_spec. tauto.
Qed.

(** X8: when the crawl holds at most 10 records whose key is not in the
    sheet, the sync drops nothing: the merged rows are the records of the
    crawl, the new ones first and each group in the order of the crawl; and
    when no record is new, they are the crawl itself, in its order. *)
Theorem orderedMovies_keeps_the_crawl values processedMovies :
  length (newMovies values processedMovies) ≤ 10 →
  orderedMovies values processedMovies =
    newMovies values processedMovies ++ oldMovies values processedMovies
  ∧ orderedMovies values processedMovies ≡ₚ processedMovies
  ∧ (newMovies values processedMovies = [] →
     orderedMovies values processedMovies = processedMovies).
Proof.
  intros Hnew.
  assert (Heq : orderedMovies values processedMovies =
    newMovies values processedMovies ++ oldMovies values processedMovies).
  { unfold orderedMovies. by rewrite take_ge. }
  split; [done|]. split; [rewrite Heq; apply new_old_Permutation|].
  intros Hnone. rewrite Heq, Hnone. simpl. unfold oldMovies.
  apply filter_all, Forall_forall. intros m Hm.
  destruct (decide (cell m 0 ∈ existingMovies values)) as [|Hnot]; [done|].
  assert (m ∈ newMovies values processedMovies) as Hin
    by (unfold newMovies; by apply list_elem_of_filter).
  rewrite Hnone in Hin. by apply elem_of_nil in Hin.
Qed.

Lemma orderedMovies_keeps_the_crawl_witness :
  orderedMovies (Scenario.sheet Scenario.prior50)
    [Scenario.fresh "old1"; Scenario.fresh "old0"]
  = [Scenario.fresh "old1"; Scenario.fresh "old0"].
Proof.
  apply (orderedMovies_keeps_the_crawl (Scenario.sheet Scenario.prior50)
           [Scenario.fresh "old1"; Scenario.fresh "old0"]);
    vm_compute; [lia | reflexivity].
Defined.

(** X9: over a sheet without data rows (no values at all, no row, or the
    header row alone) the sync writes the first 10 records of the crawl and
    nothing else. *)
Theorem orderedMovies_on_empty_sheet values processedMovies :
  values = None ∨ values = Some [] ∨ (∃ header, values = Some [header]) →
  orderedMovies values processedMovies = take 10 processedMovies.
Proof.
  intros Hvalues.
  assert (Hkeys : priorKeys values = [])
    by (destruct Hvalues as [->|[->|[header ->]]]; reflexivity).
  unfold orderedMovies, newMovies, oldMovies, existingMovies.
  rewrite Hkeys. simpl.
  rewrite filter_all, filter_none, app_nil_r; [done|..];
    apply Forall_forall; intros m _; apply not_elem_of_empty.
Qed.

Lemma orderedMovies_on_empty_sheet_witness :
  length (orderedMovies (Scenario.sheet []) Scenario.fresh15) = 10.
Proof.
  rewrite (orderedMovies_on_empty_sheet (Scenario.sheet []) Scenario.fresh15).
  - vm_compute. reflexivity.
  - right. right. eexists. reflexivity.
Defined.

(** X10: a record written by one sync is not dropped by the next sync of the
    same crawl: when the keys of the sheet are the keys of what the first
    sync wrote, every row of the first sync is among the already-known rows
    the second sync writes. *)
Theorem resync_keeps_written_rows values values' processedMovies :
  priorKeys values' =
    originalTitle <$> orderedMovies values processedMovies →
  orderedMovies values processedMovies ⊆+ oldMovies values' processedMovies
  ∧ length (orderedMovies values processedMovies)
    ≤ length (orderedMovies values' processedMovies).
Proof.
  intros Hkeys.
  assert (Hsub :
    orderedMovies values processedMovies ⊆+ oldMovies values' processedMovies).
  { pose proof (orderedMovies_submseteq values processedMovies) as Hcrawl.
    rewrite <- (filter_all (λ m, cell m 0 ∈ existingMovies values')
                  (orderedMovies values processedMovies)).
    - unfold oldMovies. by apply filter_submseteq_mono.
    - apply Forall_forall. intros m Hm. unfold existingMovies.
      rewrite elem_of_list_to_set, Hkeys. apply list_elem_of_fmap.
      by exists m. }
  split; [done|]. apply submseteq_length in Hsub.
  rewrite (orderedMovies_length values'). lia.
Qed.

Lemma resync_keeps_written_rows_witness :
  length (orderedMovies (Scenario.sheet []) Scenario.fresh15)
  ≤ length
      (orderedMovies
         (Some (take 3 <$>
                  headers ++ orderedMovies (Scenario.sheet []) Scenario.fresh15))
         Scenario.fresh15).
Proof.
  apply (resync_keeps_written_rows (Scenario.sheet [])).
  vm_compute. reflexivity.
Defined.

(* ================================================================== *)
(** * The scroll loop: waits, faults and endless pages *)
(* ================================================================== *)

(** X11: the answer of the wait of lines 177-185 plays no role: two pages
    that answer the counts and the scrolls alike make the loop end alike,
    whether their waits see growth or time out. *)
Theorem scrollLoop_ignores_wait_result fuel w w' st tr :
  (∀ i, itemCount w i = itemCount w' i) →
  (∀ i, scrollToBottom w i = scrollToBottom w' i) →
  (∀ i, waitForGrowth w i ≠ Diverge) →
  (∀ i, waitForGrowth w' i ≠ Diverge) →
  scrollLoop fuel w st tr = scrollLoop fuel w' st tr.
Proof.
  intros Hcount Hscroll Hwait Hwait'. revert st.
  induction fuel as [|fuel IH]; intros st; simpl;
    destruct (noChangeCount st <? 5); try done.
  unfold mbind, M_bind, Eff.await. rewrite <- Hcount, <- Hscroll.
  destruct (itemCount w (cycles st)) as [n| |]; [|done..].
  destruct (scrollToBottom w (cycles st)) as [[]| |]; [|done..].
  specialize (Hwait (cycles st)). specialize (Hwait' (cycles st)).
  destruct (waitForGrowth w (cycles st)), (waitForGrowth w' (cycles st));
    try done; simpl; (case_match; [done | apply IH]).
Qed.

Lemma scrollLoop_ignores_wait_result_witness :
  scrollLoop 9 Scenario.calmWorld scrollStart [] =
  scrollLoop 9
    {| launch := Return (); newPage := Return (); login := Return ();
       openFolder := Return ();
       itemCount := λ i, Return (Scenario.counts3 i);
       scrollToBottom := λ _, Return ();
       waitForGrowth := λ _, Return ();
       queryItems := Return []; getClient := Return ();
       valuesGet := Return None; valuesClear := Return ();
       valuesUpdate := λ _, Return (); browserClose := Return () |}
    scrollStart [].
Proof.
  apply scrollLoop_ignores_wait_result; intros i; simpl;
    (reflexivity || discriminate).
Defined.

Section ScrollFaults.

Variable w : World.
Variable obs : nat → nat.

(** One pass through the body when the page answers in this cycle. *)
Lemma scrollLoop_step_at fuel k tr :
  itemCount w k = Return (obs k) →
  scrollToBottom w k = Return () →
  waitForGrowth w k ≠ Diverge →
  noChangeCount (stateAfter obs k) < 5 →
  scrollLoop (S fuel) w (stateAfter obs k) tr =
    if 5 <=? noChangeCount (stateAfter obs (S k))
    then (tr, Return (stateAfter obs (S k)))
    else scrollLoop fuel w (stateAfter obs (S k)) tr.
Proof.
  intros Hcount Hscroll Hwait Hlt. simpl scrollLoop.
  apply Nat.ltb_lt in Hlt as ->.
  unfold mbind, M_bind, Eff.await.
  rewrite stateAfter_cycles, Hcount, Hscroll.
  destruct (waitForGrowth w k); [| |done]; simpl; by case_match.
Qed.

(** The loop reaches cycle [k] when the page answers before it and the
    streak stays below 5. *)
Lemma scrollLoop_reaches n j fuel tr :
  (∀ i, j ≤ i < j + n →
     itemCount w i = Return (obs i)
     ∧ scrollToBottom w i = Return ()
     ∧ waitForGrowth w i ≠ Diverge) →
  (∀ i, j ≤ i ≤ j + n → noChangeCount (stateAfter obs i) < 5) →
  scrollLoop (n + fuel) w (stateAfter obs j) tr =
  scrollLoop fuel w (stateAfter obs (j + n)) tr.
Proof.
  revert j. induction n as [|n IH]; intros j Hpage Hbelow.
  - by rewrite Nat.add_0_r.
  - destruct (Hpage j ltac:(lia)) as (Hcount & Hscroll & Hwait).
    change (S n + fuel) with (S (n + fuel)).
    rewrite scrollLoop_step_at by (try done; apply Hbelow; lia).
    pose proof (Hbelow (S j) ltac:(lia)) as Hlt.
    apply Nat.leb_gt in Hlt as ->.
    replace (j + S n) with (S j + n) by lia.
    apply IH; intros i Hi; [apply Hpage | apply Hbelow]; lia.
Qed.

End ScrollFaults.

(** X12: a fault of the count read or of the scroll in cycle [k] ends the
    loop with that fault, when the page answered in the cycles before and
    the streak was still below 5: the loop has no handler of its own. *)
Theorem scrollLoop_propagates_page_fault w obs k e fuel tr :
  (∀ i, i < k →
     itemCount w i = Return (obs i)
     ∧ scrollToBottom w i = Return ()
     ∧ waitForGrowth w i ≠ Diverge) →
  (∀ i, i ≤ k → noChangeCount (stateAfter obs i) < 5) →
  itemCount w k = Throw e
  ∨ (itemCount w k = Return (obs k) ∧ scrollToBottom w k = Throw e) →
  k < fuel →
  scrollLoop fuel w scrollStart tr = (tr, Throw e).
Proof.
  intros Hpage Hbelow Hfault Hfuel.
  replace fuel with (k + S (fuel - S k)) by lia.
  change scrollStart with (stateAfter obs 0).
  rewrite (scrollLoop_reaches w obs k 0 (S (fuel - S k)) tr);
    [|intros i Hi; apply Hpage; lia | intros i Hi; apply Hbelow; lia].
  simpl scrollLoop. pose proof (Hbelow k (le_n _)) as Hlt.
  apply Nat.ltb_lt in Hlt as ->.
  unfold mbind, M_bind, Eff.await. rewrite stateAfter_cycles.
  destruct Hfault as [-> | [-> ->]]; reflexivity.
Qed.

Lemma scrollLoop_propagates_page_fault_witness :
  scrollLoop 20
    {| launch := Return (); newPage := Return (); login := Return ();
       openFolder := Return ();
       itemCount := λ i, if i <? 2 then Return (S i)
                         else Throw (Rejected "page crashed");
       scrollToBottom := λ _, Return ();
       waitForGrowth := λ _, Return ();
       queryItems := Return []; getClient := Return ();
       valuesGet := Return None; valuesClear := Return ();
       valuesUpdate := λ _, Return (); browserClose := Return () |}
    scrollStart []
  = ([], Throw (Rejected "page crashed")).
Proof.
  apply (scrollLoop_propagates_page_fault _ S 2).
  - intros i Hi. simpl. apply Nat.ltb_lt in Hi as ->.
    repeat split; discriminate.
  - intros i Hi.
    destruct i as [|[|[|i]]]; [vm_compute; lia ..| lia].
  - left. reflexivity.
  - lia.
Defined.

(** X13: on a page whose count keeps changing, so that among any 5
    consecutive cycles one reads a count different from the one before,
    the loop never returns, whatever the fuel. *)
Theorem scrollLoop_never_returns_while_count_changes w obs :
  (∀ i, itemCount w i = Return (obs i)) →
  (∀ i, scrollToBottom w i = Return ()) →
  (∀ i, waitForGrowth w i ≠ Diverge) →
  (∀ i, ∃ j, i ≤ j < i + 5 ∧ obs j ≠ previousCount obs j) →
  ∀ fuel tr, scrollLoop fuel w scrollStart tr = (tr, Diverge).
Proof.
  intros Hcounts Hscrolls Hwaits Hchange fuel tr.
  apply (scrollLoop_fuel_too_small w obs Hcounts Hscrolls Hwaits 0).
  intros k _. simpl. apply Nat.lt_nge. intros Hstreak.
  apply streak_spec in Hstreak as [Hk Hflat].
  destruct (Hchange (k - 5)) as (j & Hj & Hne).
  apply Hne, Hflat. lia.
Qed.

Lemma scrollLoop_never_returns_while_count_changes_witness :
  scrollLoop 1000 (Scenario.calm S None) scrollStart [] = ([], Diverge).
Proof.
  apply (scrollLoop_never_returns_while_count_changes _ S).
  - reflexivity.
  - reflexivity.
  - discriminate.
  - intros i. exists i. split; [lia|]. destruct i; simpl; lia.
Defined.

(* ================================================================== *)
(** * Extraction and the whole run *)
(* ================================================================== *)

Lemma quiet_Return {A} (m : M A) tr tr' a :
  quiet m → m tr = (tr', Return a) → tr' = tr.
Proof. intros Hq Hm. specialize (Hq tr). by rewrite Hm in Hq. Qed.

Lemma trimmed_field (o : outcome string) v :
  Eff.catchWith Null ((λ s, Str (Js.trim s)) <$> o) = Return v →
  truthy v = true →
  ∃ t, v = Str t ∧ t ≠ "" ∧ Js.trim t = t.
Proof.
  destruct o as [s| |]; simpl; intros [= <-]; [|done].
  intros (t & [= <-] & Hne)%truthy_Str.
  exists (Js.trim s). by rewrite trim_idem.
Qed.

Lemma extractItem_complete div tr tr' m :
  extractItem div tr = (tr', Return (Some m)) → complete m.
Proof.
  unfold extractItem. intros H.
  apply M_bind_Return in H as (? & t & Ht & H).
  apply M_bind_Return in H as (? & u & Hu & H).
  apply M_bind_Return in H as (? & s & Hs & H).
  injection H as _ H. injection Ht as _ Ht. injection Hu as _ Hu.
  injection Hs as _ Hs.
  destruct (truthy t) eqn:Htt; [|done].
  destruct (truthy u) eqn:Htu; [|done].
  destruct (truthy s) eqn:Hts; [|done].
  injection H as <-.
  destruct (trimmed_field _ _ Ht Htt) as (t' & -> & ? & ?).
  destruct (trimmed_field _ _ Hs Hts) as (s' & -> & ? & ?).
  apply truthy_Str in Htu as (u' & -> & ?).
  by exists t', u', s'.
Qed.

Lemma extractItems_complete divs tr tr' pushed :
  mapM extractItem divs tr = (tr', Return pushed) →
  Forall complete (omap id pushed) ∧ length pushed = length divs.
Proof.
  revert tr tr' pushed.
  induction divs as [|div divs IH]; intros tr tr' pushed H.
  - injection H as _ <-. by split; [constructor|].
  - change (mapM extractItem (div :: divs)) with
      (y ← extractItem div; ys ← mapM extractItem divs; mret (y :: ys)) in H.
    apply M_bind_Return in H as (tr1 & o & Ho & H).
    apply M_bind_Return in H as (tr2 & os & Hos & H).
    injection H as _ <-. apply IH in Hos as [Hall Hlen].
    split; [|simpl; by rewrite Hlen].
    destruct o as [m|]; simpl; [|done].
    constructor; [by eapply extractItem_complete | done].
Qed.

Lemma length_omap_id {A} (l : list (option A)) :
  length (omap id l) ≤ length l.
Proof.
  induction l as [|[x|] l IH]; [done| |].
  - change (omap id (Some x :: l)) with (x :: omap id l). simpl. lia.
  - change (omap id (None :: l)) with (omap id l). simpl. lia.
Qed.

Lemma extractMovies_inv w tr tr' movieData :
  extractMovies w tr = (tr', Return movieData) →
  tr' = tr
  ∧ Forall complete movieData
  ∧ ∃ divs, queryItems w = Return divs ∧ length movieData ≤ length divs.
Proof.
  intros H. split; [by eapply quiet_Return; [apply quiet_extractMovies|]|].
  unfold extractMovies in H.
  apply M_bind_Return in H as (? & divs & Hdivs & H).
  apply M_bind_Return in H as (? & pushed & Hp & H).
  injection H as _ <-. injection Hdivs as _ Hdivs.
  apply extractItems_complete in Hp as [Hall Hlen].
  split; [done|]. exists divs. split; [done|].
  rewrite <- Hlen. apply length_omap_id.
Qed.

(** X14: the extraction never emits a partial record: every element of
    [movieData] has a non-empty string for its title, its url and its size,
    the title and the size without surrounding white space; there are at
    most as many records as list items, and the extraction leaves no
    event. *)
Theorem extractMovies_emits_complete_records w tr tr' movieData :
  extractMovies w tr = (tr', Return movieData) →
  tr' = tr
  ∧ Forall complete movieData
  ∧ ∃ divs, queryItems w = Return divs ∧ length movieData ≤ length divs.
Proof. apply extractMovies_inv. Qed.

Lemma extractMovies_emits_complete_records_witness :
  Forall complete
    [ {| original_title := Str "Heat.1995.1080p.mkv";
         url := Str "https://heat"; size := Str "12 GB" |};
      {| original_title := Str "old0";
         url := Str "https://old0"; size := Str "3 GB" |} ].
Proof.
  apply (extractMovies_emits_complete_records Scenario.calmWorld [] []).
  vm_compute. reflexivity.
Defined.

Lemma updateSheet_inv w processedMovies tr tr' :
  updateSheet w processedMovies tr = (tr', Return ()) →
  ∃ values,
    valuesGet w = Return values
    ∧ tr' = tr ++ [ SheetCleared;
                    SheetWritten
                      (headers ++ orderedMovies values processedMovies) ].
Proof.
  unfold updateSheet, mbind, M_bind, Eff.await, Eff.perform.
  destruct (valuesGet w) as [values| |]; [|done..].
  destruct (valuesClear w) as [[]| |]; [|done..].
  destruct (valuesUpdate w _) as [[]| |]; [|done..].
  intros [= <-]. exists values. by rewrite <- app_assoc.
Qed.

Lemma await_Return {A} (o : outcome A) tr tr' a :
  Eff.await o tr = (tr', Return a) → tr' = tr ∧ o = Return a.
Proof. by intros [= <- ->]. Qed.

(** The stages a returning [try] body went through. *)
Lemma pipeline_inv fuel w tr tr' :
  pipeline fuel w tr = (tr', Return ()) →
  ∃ movieData processedMovies values,
    extractMovies w tr = (tr, Return movieData)
    ∧ processMovies movieData = Return processedMovies
    ∧ valuesGet w = Return values
    ∧ tr' = tr ++ [ SheetCleared;
                    SheetWritten
                      (headers ++ orderedMovies values processedMovies) ].
Proof.
  unfold pipeline. intros H.
  apply M_bind_Return in H as (? & ? & [-> _]%await_Return & H).
  apply M_bind_Return in H as (? & ? & [-> _]%await_Return & H).
  apply M_bind_Return in H as (tr1 & ? & Hscroll & H).
  apply quiet_Return in Hscroll as ->; [|apply quiet_scrollLoop].
  apply M_bind_Return in H as (tr2 & movieData & Hextract & H).
  pose proof (quiet_Return _ _ _ _ (quiet_extractMovies w) Hextract) as ->.
  apply M_bind_Return in H as (? & ? & [-> _]%await_Return & H).
  apply M_bind_Return in H as (? & processedMovies & [-> Hp]%await_Return & H).
  apply updateSheet_inv in H as (values & Hget & ->).
  by exists movieData, processedMovies, values.
Qed.

(** X15: when the browser starts and the [try] body ends (by returning or by
    throwing), the run ends as the closing of the browser ends: normally if
    the browser closes, and with the fault of [browser.close()] otherwise,
    whatever happened inside the [try]; the browser is closed exactly when
    closing succeeds, as the last event of the run. *)
Theorem run_ends_as_browser_close_ends fuel w :
  launch w = Return () →
  newPage w = Return () →
  (pipeline fuel w []).2 ≠ Diverge →
  (run fuel w).2 = browserClose w
  ∧ (BrowserClosed ∈ (run fuel w).1 ↔ browserClose w = Return ())
  ∧ (browserClose w = Return () → last (run fuel w).1 = Some BrowserClosed).
Proof.
  intros Hlaunch Hpage Hends.
  unfold run, crawlAndUpdate, mbind, M_bind, Eff.await.
  rewrite Hlaunch, Hpage. unfold Eff.tryCatchFinally.
  destruct (pipeline fuel w []) as [tr r] eqn:Hbody.
  pose proof (pipeline_events fuel w [] tr r Hbody) as Hevents.
  assert (Hopen : ∀ tr0, BrowserClosed ∈ tr0 →
            tr0 = tr ∨ (∃ e, tr0 = tr ++ [ErrorLogged e]) → False).
  { intros tr0 Hin Htr0. destruct r as [[]|e|]; [| |done].
    - destruct Hevents as [rows ->]. destruct Htr0 as [-> | [e ->]];
        repeat (apply elem_of_cons in Hin as [?|Hin]; [done|]);
        by apply elem_of_nil in Hin.
    - destruct Hevents as [-> | ->]; destruct Htr0 as [-> | [e' ->]];
        repeat (apply elem_of_cons in Hin as [?|Hin]; [done|]);
        by apply elem_of_nil in Hin. }
  destruct r as [[]|e|]; [| |done]; unfold Eff.emit, Eff.perform;
    destruct (browserClose w) as [[]| |] eqn:Hclose; simpl;
    (split; [done|]); split;
    try (split; [done | intros _; apply elem_of_app; right;
                        by apply list_elem_of_singleton]);
    try (intros _; by rewrite last_snoc);
    try done;
    (split; [|done]); intros Hin; exfalso; eapply Hopen; eauto.
Qed.

Lemma run_ends_as_browser_close_ends_witness :
  (run 20 Scenario.unauthorized).2 = Return ()
  ∧ last (run 20 Scenario.unauthorized).1 = Some BrowserClosed.
Proof.
  destruct (run_ends_as_browser_close_ends 20 Scenario.unauthorized)
    as (Hout & _ & Hlast); [reflexivity | reflexivity | |].
  - vm_compute. discriminate.
  - split; [exact Hout | by apply Hlast].
Defined.

(** X16: a run whose [try] body returns has cleared the sheet once and then
    written it once, before closing the browser, and has logged no error.
    The table written starts with the header row, each of its rows has 7
    cells, each data row has a non-empty original-title, and there are at
    most as many data rows as list items on the page. *)
Theorem successful_run_writes_one_table fuel w tr :
  launch w = Return () →
  newPage w = Return () →
  browserClose w = Return () →
  pipeline fuel w [] = (tr, Return ()) →
  ∃ merged divs,
    run fuel w =
      ([SheetCleared; SheetWritten (headers ++ merged); BrowserClosed],
       Return ())
    ∧ sevenColumns (headers ++ merged)
    ∧ Forall (λ row, truthy (originalTitle row) = true) merged
    ∧ queryItems w = Return divs
    ∧ length merged ≤ length divs.
Proof.
  intros Hlaunch Hpage Hclose Hbody.
  pose proof (pipeline_inv fuel w [] tr Hbody)
    as (movieData & processed & values & Hextract & Hprocess & _ & ->).
  apply extractMovies_inv in Hextract as (_ & _ & divs & Hdivs & Hlen).
  assert (Hrows : sevenColumns processed
                  ∧ Forall (λ row, truthy (cell row 0) = true) processed
                  ∧ length processed = length movieData).
  { clear -Hprocess. revert processed Hprocess.
    induction movieData as [|m ms IH]; intros processed.
    - intros [= <-]. by repeat split; constructor.
    - rewrite processMovies_cons.
      destruct (processMovie m) as [row| |] eqn:Hrow; [|done..].
      destruct (processMovies ms) as [rows'| |]; [|done..].
      intros [= <-]. destruct (IH rows' eq_refl) as (Hseven & Hkeys & Hlen).
      apply processMovie_inv in Hrow as (r & Hr & ->).
      repeat split; [by constructor | | simpl; by rewrite Hlen].
      constructor; [|done]. by eapply sanitize_Some_truthy. }
  destruct Hrows as (Hseven & Hkeys & Hcount).
  pose proof (orderedMovies_submseteq values processed) as Hsub.
  exists (orderedMovies values processed), divs. split; [|split; [|split]].
  - unfold run, crawlAndUpdate, mbind, M_bind, Eff.await.
    rewrite Hlaunch, Hpage. unfold Eff.tryCatchFinally.
    rewrite Hbody. unfold Eff.perform. by rewrite Hclose.
  - apply Forall_app. split; [by repeat constructor|].
    apply Forall_forall. intros row Hrow.
    eapply Forall_forall in Hseven; [done|].
    by eapply elem_of_submseteq.
  - apply Forall_forall. intros row Hrow.
    eapply Forall_forall in Hkeys; [done|].
    by eapply elem_of_submseteq.
  - split; [done|]. apply submseteq_length in Hsub. lia.
Qed.

Lemma successful_run_writes_one_table_witness :
  ∃ merged,
    run 20 Scenario.calmWorld =
      ([SheetCleared; SheetWritten (headers ++ merged); BrowserClosed],
       Return ())
    ∧ sevenColumns (headers ++ merged).
Proof.
  destruct (successful_run_writes_one_table 20 Scenario.calmWorld
    [ SheetCleared;
      SheetWritten
        (headers ++
           [ [ Str "Heat.1995.1080p.mkv"; Str "https://heat"; Str "12 GB";
               Str "Heat"; Str "1995"; Str "1080p"; Str "" ];
             [ Str "old0"; Str "https://old0"; Str "3 GB";
               Str "old0"; Str ""; Str ""; Str "" ] ]) ])
    as (merged & divs & Hrun & Hseven & _); [reflexivity..| |].
  - vm_compute. reflexivity.
  - exists merged. split; [exact Hrun | exact Hseven].
Defined.

Section ScrollSafety.

Variable w : World.

Lemma streakOfReads_observe st n :
  streakOfReads w st →
  itemCount w (cycles st) = Return n →
  streakOfReads w (observe st n).
Proof.
  intros [Hle Hreads] Hread. unfold streakOfReads, observe. simpl.
  destruct (Nat.eqb_spec n (prevContentLength st)) as [->|Hne].
  - split; [lia|]. intros i Hi.
    destruct (decide (i = cycles st)) as [->|]; [done|].
    apply Hreads. lia.
  - split; [lia|]. intros i Hi. lia.
Qed.

Lemma scrollLoop_S fuel st :
  scrollLoop (S fuel) w st =
  if noChangeCount st <? 5 then
    currentContentLength ← Eff.await (itemCount w (cycles st));
    Eff.await (scrollToBottom w (cycles st));;
    Eff.await (Eff.catchWith () (waitForGrowth w (cycles st)));;
    if 5 <=? noChangeCount (observe st currentContentLength)
    then mret (observe st currentContentLength)
    else scrollLoop fuel w (observe st currentContentLength)
  else mret st.
Proof. reflexivity. Qed.

Lemma scrollLoop_returns_inv fuel st tr tr' st' :
  streakOfReads w st →
  noChangeCount st < 5 →
  scrollLoop fuel w st tr = (tr', Return st') →
  noChangeCount st' = 5 ∧ streakOfReads w st'.
Proof.
  revert st. induction fuel as [|fuel IH]; intros st Hinv Hlt;
    pose proof Hlt as Hlt'; apply Nat.ltb_lt in Hlt'.
  { simpl. by rewrite Hlt'. }
  rewrite scrollLoop_S, Hlt'. intros H.
  apply M_bind_Return in H as (? & n & [-> Hread]%await_Return & H).
  apply M_bind_Return in H as (? & ? & [-> _]%await_Return & H).
  apply M_bind_Return in H as (? & ? & [-> _]%await_Return & H).
  pose proof (streakOfReads_observe st n Hinv Hread) as Hinv'.
  revert H.
  destruct (Nat.leb_spec 5 (noChangeCount (observe st n))) as [Hge|Hlt5];
    intros H.
  - unfold mret, M_ret in H. injection H as _ <-. split; [|done].
    unfold observe in *. simpl in *. case_match; lia.
  - by eapply IH.
Qed.

End ScrollSafety.

(** X17: whatever the page answers, the scroll loop returns only with a
    streak of exactly 5, after at least 5 cycles, when the last 5 reads all
    gave the count it ends with; and it leaves no event. *)
Theorem scrollLoop_returns_only_at_streak_5 fuel w tr tr' st :
  scrollLoop fuel w scrollStart tr = (tr', Return st) →
  tr' = tr
  ∧ noChangeCount st = 5
  ∧ 5 ≤ cycles st
  ∧ ∀ i, cycles st - 5 ≤ i < cycles st →
         itemCount w i = Return (prevContentLength st).
Proof.
  intros H. split; [by eapply quiet_Return; [apply quiet_scrollLoop|]|].
  apply scrollLoop_returns_inv in H as (Hfive & Hle & Hreads).
  - rewrite Hfive in *. by repeat split.
  - split; [simpl; lia|]. intros i Hi. simpl in Hi. lia.
  - simpl. lia.
Qed.

Lemma scrollLoop_returns_only_at_streak_5_witness :
  itemCount Scenario.calmWorld 4 = Return 3
  ∧ itemCount Scenario.calmWorld 8 = Return 3.
Proof.
  destruct (scrollLoop_returns_only_at_streak_5 20 Scenario.calmWorld [] []
              {| prevContentLength := 3; noChangeCount := 5; cycles := 9 |})
    as (_ & _ & _ & Hreads).
  - vm_compute. reflexivity.
  - split; apply Hreads; simpl; lia.
Defined.
